(** * HassIL expression listener: a shallow embedding and its properties

    The development follows [parser/hassil/expression_listener.py].  The
    listener builds its result by mutating [Sequence] objects that are reachable
    both from the stack [_sequences] and from the [items] list of their parent,
    so the model keeps an explicit object store: a [Sequence] lives at an
    address, an [items] list holds leaf expressions by value and sequences by
    address, and every handler is a function from listener state to either a
    new state or the exception the Python code raises. *)

From Stdlib Require Import ZArith Lia Ascii String List Bool.
From stdpp Require Import base tactics option numbers list sets strings.

Local Open Scope string_scope.
Local Open Scope nat_scope.
Local Open Scope list_scope.

(** ** Characters and text *)

Module Text.

Definition dquote : ascii := "034"%char.
Definition squote : ascii := "039"%char.
Definition backslash : ascii := "092"%char.
Definition newline : ascii := "010"%char.

(** A text is a [str] whose code points are all below 256, one [ascii] for
    each code point; a [str] with a code point from 256 on has no
    counterpart here.

    The characters Python's [str.strip()] removes, among the code points
    below 256: tab, line feed, vertical tab, form feed, carriage return, the
    four separators 28..31, the space, the next-line control U+0085 and the
    no-break space U+00A0. *)
Definition is_space (c : ascii) : bool :=
  let n := nat_of_ascii c in
  ((9 <=? n) && (n <=? 13)) || ((28 <=? n) && (n <=? 32)) ||
  (n =? 133) || (n =? 160).

Fixpoint lstrip (cs : list ascii) : list ascii :=
  match cs with
  | c :: cs' => if is_space c then lstrip cs' else cs
  | [] => []
  end.

Definition rstrip (cs : list ascii) : list ascii := rev (lstrip (rev cs)).

(** [str.strip()] *)
Definition strip (s : string) : string :=
  string_of_list_ascii (rstrip (lstrip (list_ascii_of_string s))).

(** ["\n".join(lines)] *)
Fixpoint join (sep : string) (lines : list string) : string :=
  match lines with
  | [] => EmptyString
  | [x] => x
  | x :: rest => String.append x (String.append sep (join sep rest))
  end.

Definition is_empty (s : string) : bool :=
  match s with EmptyString => true | _ => false end.

Definition is_digit (c : ascii) : bool :=
  let n := nat_of_ascii c in (48 <=? n) && (n <=? 57).

(** [int(...)] on a run of decimal digits. *)
Definition digit_value (c : ascii) : Z := Z.of_nat (nat_of_ascii c - 48).

Fixpoint int_of_digits (acc : Z) (cs : list ascii) : Z :=
  match cs with
  | [] => acc
  | c :: cs' => int_of_digits (10 * acc + digit_value c)%Z cs'
  end.

(** Splits the longest prefix of decimal digits from the rest. *)
Fixpoint span_digits (cs : list ascii) : list ascii * list ascii :=
  match cs with
  | c :: cs' =>
      if is_digit c then let '(ds, rest) := span_digits cs' in (c :: ds, rest)
      else ([], cs)
  | [] => ([], [])
  end.

End Text.

(** ** The expression classes *)

(** Modelled from the spec: the classes [SequenceType], [Word], [Number],
    [NumberRange], [ListReference], [RuleReference], [Sequence] and
    [Sentence] are declared in [expression.py], which the listener imports
    and which is not among the source files; their fields are taken from
    the spec's data model and from the listener's constructor calls. *)
Inductive SequenceType : Type := GROUP | ALTERNATIVE.

(** The leaf expressions; they are immutable values. *)
Inductive Atom : Type :=
  | Word (text : string)
  | Number (number : Z)
  | NumberRange (lower_bound upper_bound step : Z)
  | ListReference (list_name : string)
  | RuleReference (rule_name : string).

(** A finished expression tree, as a caller sees it once it follows the
    references of a sentence. *)
#[warnings="-register-all"]
Inductive Expression : Type :=
  | Leaf (x : Atom)
  | Seq (type : SequenceType) (items : list Expression).

(** Objects are addressed by natural numbers. *)
Abbreviation addr := nat (only parsing).

(** What an [items] list holds: a leaf by value, a [Sequence] by reference. *)
Inductive Item : Type :=
  | Atomic (x : Atom)
  | Ref (a : addr).

(** A [Sequence] object ([Sentence] is a subclass without further behaviour
    here).  Each object has an [items] list of its own: the only place where
    the source hands one list to a second object ([items=old_items] in
    [enterAlt], [items=optional.items] in [exitOptional]) rebinds the first
    owner's attribute to a new list in the same statement. *)
Record Sequence : Type := mkSequence {
  type : SequenceType;
  items : list Item
}.

#[global] Instance SequenceType_eq_dec : EqDecision SequenceType.
Proof. solve_decision. Defined.
#[global] Instance Atom_eq_dec : EqDecision Atom.
Proof. solve_decision. Defined.
#[global] Instance Item_eq_dec : EqDecision Item.
Proof. solve_decision. Defined.

(** Modelled from the spec: [Word.empty()] of [expression.py]; the spec
    gives it as [Word("")]. *)
Definition Word_empty : Atom := Word EmptyString.

(** ** The token classifier's helpers *)

Module Patterns.
Import Text.

(** Modelled from the spec: [remove_escapes] of [expression.py]; each
    backslash-prefixed character is replaced by that literal character and
    nothing else changes. *)
Fixpoint remove_escapes_chars (cs : list ascii) : list ascii :=
  match cs with
  | c :: rest =>
      match rest with
      | c2 :: rest2 =>
          if Ascii.eqb c backslash then c2 :: remove_escapes_chars rest2
          else c :: remove_escapes_chars rest
      | [] => [c]
      end
  | [] => []
  end.

Definition remove_escapes (s : string) : string :=
  string_of_list_ascii (remove_escapes_chars (list_ascii_of_string s)).

Definition is_quote (c : ascii) : bool :=
  Ascii.eqb c dquote || Ascii.eqb c squote.

(** Modelled from the spec: [remove_quotes] of [expression.py]; one matching
    outer pair of quote characters is removed if, and only if, it wraps the
    whole text. *)
Definition remove_quotes (s : string) : string :=
  match list_ascii_of_string s with
  | c :: rest =>
      match rev rest with
      | d :: inner_rev =>
          if is_quote c && Ascii.eqb c d
          then string_of_list_ascii (rev inner_rev)
          else s
      | [] => s
      end
  | [] => s
  end.

Definition is_sign (c : ascii) : bool :=
  Ascii.eqb c "-"%char || Ascii.eqb c "+"%char.

(** Modelled from the spec: [NUMBER_PATTERN] of [expression.py]; the whole
    text is an optional sign followed by digits only.  The result is group 1
    as [int] reads it. *)
Definition NUMBER_PATTERN_match (s : string) : option Z :=
  match list_ascii_of_string s with
  | c :: rest =>
      if is_sign c then
        match rest with
        | [] => None
        | _ =>
            if forallb is_digit rest
            then Some (if Ascii.eqb c "-"%char
                       then Z.opp (int_of_digits 0 rest)
                       else int_of_digits 0 rest)
            else None
        end
      else if forallb is_digit (c :: rest)
           then Some (int_of_digits 0 (c :: rest)) else None
  | [] => None
  end.

(** Modelled from the spec: [NUMBER_RANGE_PATTERN] of [expression.py]; the
    whole text is [lower..upper] or [lower..upper..step], digits separated by
    the two-character separator.  The result is groups 1 and 2 as [int] reads
    them and the named group [step] when it took part in the match. *)
Definition NUMBER_RANGE_PATTERN_match (s : string) : option (Z * Z * option Z) :=
  let '(lo, r1) := span_digits (list_ascii_of_string s) in
  match lo, r1 with
  | _ :: _, "."%char :: "."%char :: r2 =>
      let '(hi, r3) := span_digits r2 in
      match hi, r3 with
      | _ :: _, [] => Some (int_of_digits 0 lo, int_of_digits 0 hi, None)
      | _ :: _, "."%char :: "."%char :: r4 =>
          let '(st, r5) := span_digits r4 in
          match st, r5 with
          | _ :: _, [] =>
              Some (int_of_digits 0 lo, int_of_digits 0 hi,
                    Some (int_of_digits 0 st))
          | _, _ => None
          end
      | _, _ => None
      end
  | _, _ => None
  end.

End Patterns.

(** ** Exceptions *)

(** What a handler can raise: a failed [assert] with its message, the
    [IndexError] of [self._sequences[-1]] on an empty list, and the syntax
    error of the front-end.  [DanglingReference] has no counterpart in
    Python, where a reference always leads to its object: the model raises
    it when an address is not in the store. *)
Inductive Error : Type :=
  | AssertionError (message : string)
  | IndexError
  | SyntaxError
  | DanglingReference.

Inductive result (A : Type) : Type :=
  | Ok (x : A)
  | Raise (e : Error).
Arguments Ok {A} x.
Arguments Raise {A} e.

Definition bind {A B : Type} (m : result A) (k : A -> result B) : result B :=
  match m with
  | Ok x => k x
  | Raise e => Raise e
  end.

Notation "'let*' x ':=' m 'in' k" := (bind m (fun x => k))
  (at level 10, x pattern, m at level 100, k at level 200).

Definition is_ok {A : Type} (m : result A) : bool :=
  match m with Ok _ => true | Raise _ => false end.

(** ** The listener *)

(** The object store, addressed by allocation order. *)
Abbreviation Heap := (list Sequence) (only parsing).

(** [HassILExpressionListener]: its three attributes and the objects they
    reach.  [_sequences] is kept in Python's order, its last element being the
    current target; [None] is [GROUP_MARKER]. *)
Record Listener : Type := mkListener {
  heap : Heap;
  sentences : list addr;
  _sentence : option addr;
  _sequences : list (option addr)
}.

Definition GROUP_MARKER : option addr := None.

(** [__init__] *)
Definition init : Listener :=
  {| heap := []; sentences := []; _sentence := None; _sequences := [] |}.

Definition set_heap (h : Heap) (l : Listener) : Listener :=
  {| heap := h; sentences := sentences l;
     _sentence := _sentence l; _sequences := _sequences l |}.

Definition set_sequences (s : list (option addr)) (l : Listener) : Listener :=
  {| heap := heap l; sentences := sentences l;
     _sentence := _sentence l; _sequences := s |}.

(** A constructor call [Sequence(type=t, items=its)]: a new object, at the
    next free address.  Without [items] the new object has an empty list of
    its own. *)
Definition new_Sequence (t : SequenceType) (its : list Item) (l : Listener)
  : addr * Listener :=
  (length (heap l), set_heap (heap l ++ [mkSequence t its]) l).

Definition load (a : addr) (l : Listener) : result Sequence :=
  match heap l !! a with
  | Some o => Ok o
  | None => Raise DanglingReference
  end.

Definition store (a : addr) (o : Sequence) (l : Listener) : Listener :=
  set_heap (<[a := o]> (heap l)) l.

(** [seq.items.append(it)] on the object at [a]. *)
Definition items_append (a : addr) (it : Item) (l : Listener) : result Listener :=
  let* o := load a l in
  Ok (store a (mkSequence (type o) (items o ++ [it])) l).

(** The property [last_sequence]. *)
Definition last_sequence (l : Listener) : result addr :=
  match _sequences l with
  | [] => Raise (AssertionError "No target sequence")
  | _ =>
      match last (_sequences l) with
      | Some (Some a) => Ok a
      | _ => Raise (AssertionError "Invalid target sequence")
      end
  end.

(** The loop of [last_parent_sequence] over [reversed(self._sequences)]. *)
Fixpoint scan_parent (rs : list (option addr)) (parent_sequence : option addr)
  : option addr :=
  match rs with
  | [] => parent_sequence
  | None :: _ => parent_sequence
  | Some a :: rs' => scan_parent rs' (Some a)
  end.

(** The property [last_parent_sequence]. *)
Definition last_parent_sequence (l : Listener) : result addr :=
  match _sequences l with
  | [] => Raise (AssertionError "No target sequence")
  | _ =>
      match scan_parent (rev (_sequences l)) None with
      | Some a => Ok a
      | None => Raise (AssertionError "No parent sequence")
      end
  end.

(** The [while] loop of [_pop_group], on the stack seen from its top: [rs] is
    what is left of the stack and [item] the entry popped last. *)
Fixpoint pop_until_marker (rs : list (option addr)) (item : option addr)
  : result (option addr * list (option addr)) :=
  match rs with
  | [] => Raise IndexError
  | None :: _ => Ok (item, rs)
  | Some a :: rs' => pop_until_marker rs' (Some a)
  end.

Definition _pop_group (l : Listener) : result (addr * Listener) :=
  if length (_sequences l) <=? 1 then Raise (AssertionError "Bad sequence stack")
  else
    match rev (_sequences l) with
    | [] => Raise IndexError
    | top :: rs =>
        let* (item, rs') := pop_until_marker rs top in
        match item with
        | None => Raise (AssertionError "Invalid last sequence")
        | Some a =>
            match rs' with
            | None :: rs'' => Ok (a, set_sequences (rev rs'') l)
            | _ => Raise (AssertionError "Missing group marker")
            end
        end
    end.

(** Modelled from the spec: [Sentence()] is a new root sequence of type
    [GROUP] without items. *)
Definition enterSentence (l : Listener) : result Listener :=
  let '(s, l1) := new_Sequence GROUP [] l in
  Ok {| heap := heap l1; sentences := sentences l1;
        _sentence := Some s; _sequences := [Some s] |}.

Definition exitSentence (l : Listener) : result Listener :=
  match _sentence l with
  | None => Raise (AssertionError "No sentence started")
  | Some s =>
      Ok {| heap := heap l; sentences := sentences l ++ [s];
            _sentence := None; _sequences := [] |}
  end.

Definition enterGroup (l : Listener) : result Listener :=
  let l1 := set_sequences (_sequences l ++ [GROUP_MARKER]) l in
  let '(g, l2) := new_Sequence GROUP [] l1 in
  Ok (set_sequences (_sequences l2 ++ [Some g]) l2).

Definition exitGroup (l : Listener) : result Listener :=
  let* (group, l1) := _pop_group l in
  let* target := last_sequence l1 in
  items_append target (Ref group) l1.

Definition enterOptional (l : Listener) : result Listener :=
  let l1 := set_sequences (_sequences l ++ [GROUP_MARKER]) l in
  let '(g, l2) := new_Sequence GROUP [] l1 in
  Ok (set_sequences (_sequences l2 ++ [Some g]) l2).

(** The body of [if optional.type != SequenceType.ALTERNATIVE] in
    [exitOptional]; [o] is the object at [optional]. *)
Definition optional_to_alternative (optional : addr) (o : Sequence)
    (l : Listener) : Listener :=
  match type o with
  | ALTERNATIVE => l
  | GROUP =>
      if 1 <? length (items o) then
        let '(w, l') := new_Sequence GROUP (items o) l in
        store optional (mkSequence ALTERNATIVE [Ref w]) l'
      else store optional (mkSequence ALTERNATIVE (items o)) l
  end.

Definition exitOptional (l : Listener) : result Listener :=
  let* (optional, l1) := _pop_group l in
  let* o := load optional l1 in
  let l2 := optional_to_alternative optional o l1 in
  let* l3 := items_append optional (Atomic Word_empty) l2 in
  let* target := last_sequence l3 in
  items_append target (Ref optional) l3.

(** The body of [if sequence.type != SequenceType.ALTERNATIVE] in
    [enterAlt]; [o] is the object at [sequence]. *)
Definition group_to_alternative (sequence : addr) (o : Sequence)
    (l : Listener) : Listener :=
  match type o with
  | ALTERNATIVE => l
  | GROUP =>
      match items o with
      | [] => store sequence (mkSequence ALTERNATIVE []) l
      | old_items =>
          let '(w, l') := new_Sequence GROUP old_items l in
          store sequence (mkSequence ALTERNATIVE [Ref w]) l'
      end
  end.

Definition enterAlt (l : Listener) : result Listener :=
  let* sequence := last_parent_sequence l in
  let* o := load sequence l in
  let l1 := group_to_alternative sequence o l in
  let '(next_group, l2) := new_Sequence GROUP [] l1 in
  let* l3 := items_append sequence (Ref next_group) l2 in
  Ok (set_sequences (_sequences l3 ++ [Some next_group]) l3).

Definition enterRule (rule_name : string) (l : Listener) : result Listener :=
  let* target := last_sequence l in
  items_append target (Atomic (RuleReference rule_name)) l.

Definition enterList (list_name : string) (l : Listener) : result Listener :=
  let* target := last_sequence l in
  items_append target (Atomic (ListReference list_name)) l.

(** The classification [enterWord] performs on the token's text. *)
Definition classify (raw : string) : Atom :=
  let word_text := Text.strip raw in
  let word_text := Patterns.remove_escapes word_text in
  let word_text := Patterns.remove_quotes word_text in
  match Patterns.NUMBER_PATTERN_match word_text with
  | Some n => Number n
  | None =>
      match Patterns.NUMBER_RANGE_PATTERN_match word_text with
      | Some (lo, hi, step) =>
          NumberRange lo hi (match step with Some s => s | None => 1%Z end)
      | None => Word word_text
      end
  end.

Definition enterWord (text : string) (l : Listener) : result Listener :=
  let item := classify text in
  let* target := last_sequence l in
  items_append target (Atomic item) l.

(** ** Parse trees and the tree walk *)

(** Modelled from the spec: the contexts of the generated parser
    ([HassILGrammarParser], not among the source files) that the walker
    visits below a sentence, one for each structural event of the spec.  A
    word, a rule and a list context carry the text the handlers read from
    them.  The separator of an alternation is a context of its own; the
    listener reacts to entering it only. *)
#[warnings="-register-all"]
Inductive Ctx : Type :=
  | WordCtx (text : string)
  | RuleCtx (rule_name : string)
  | ListCtx (list_name : string)
  | AltCtx
  | GroupCtx (children : list Ctx)
  | OptionalCtx (children : list Ctx).

(** A sentence context is the list of its children; a document is the list of
    its sentences. *)
Definition SentenceCtx : Type := list Ctx.
Definition DocumentCtx : Type := list SentenceCtx.

(** The listener callbacks the walker fires. *)
Inductive Event : Type :=
  | EnterSentence | ExitSentence
  | EnterGroup | ExitGroup
  | EnterOptional | ExitOptional
  | EnterAlt
  | EnterRule (rule_name : string)
  | EnterList (list_name : string)
  | EnterWord (text : string).

Definition dispatch (ev : Event) (l : Listener) : result Listener :=
  match ev with
  | EnterSentence => enterSentence l
  | ExitSentence => exitSentence l
  | EnterGroup => enterGroup l
  | ExitGroup => exitGroup l
  | EnterOptional => enterOptional l
  | ExitOptional => exitOptional l
  | EnterAlt => enterAlt l
  | EnterRule n => enterRule n l
  | EnterList n => enterList n l
  | EnterWord t => enterWord t l
  end.

Fixpoint run (evs : list Event) (l : Listener) : result Listener :=
  match evs with
  | [] => Ok l
  | ev :: evs' => let* l' := dispatch ev l in run evs' l'
  end.

(** [ParseTreeWalker.walk]: enter a context, walk its children in order, exit
    it. *)
Fixpoint events_of (c : Ctx) : list Event :=
  match c with
  | WordCtx t => [EnterWord t]
  | RuleCtx n => [EnterRule n]
  | ListCtx n => [EnterList n]
  | AltCtx => [EnterAlt]
  | GroupCtx cs => EnterGroup :: flat_map events_of cs ++ [ExitGroup]
  | OptionalCtx cs => EnterOptional :: flat_map events_of cs ++ [ExitOptional]
  end.

Definition events_of_children (cs : list Ctx) : list Event :=
  flat_map events_of cs.

Definition events_of_sentence (s : SentenceCtx) : list Event :=
  EnterSentence :: events_of_children s ++ [ExitSentence].

Definition events_of_document (d : DocumentCtx) : list Event :=
  flat_map events_of_sentence d.

Definition walk (d : DocumentCtx) (l : Listener) : result Listener :=
  run (events_of_document d) l.

(** ** The grammar front-end *)

Module FrontEnd.
Import Text.

Inductive Token : Type :=
  | TLParen | TRParen | TLBracket | TRBracket | TBar | TNewline
  | TRuleName (name : string)
  | TListName (name : string)
  | TString (text : string).

Inductive Mode : Type := Plain | Quoted | InRule | InList.

Definition flush (acc : list ascii) : list Token :=
  match acc with
  | [] => []
  | _ => [TString (string_of_list_ascii (rev acc))]
  end.

Definition emit (ts : list Token) (r : option (list Token)) : option (list Token) :=
  match r with
  | Some ts' => Some (ts ++ ts')
  | None => None
  end.

Definition punctuation (c : ascii) : option Token :=
  if Ascii.eqb c "("%char then Some TLParen
  else if Ascii.eqb c ")"%char then Some TRParen
  else if Ascii.eqb c "["%char then Some TLBracket
  else if Ascii.eqb c "]"%char then Some TRBracket
  else if Ascii.eqb c "|"%char then Some TBar
  else if Ascii.eqb c newline then Some TNewline
  else None.

(** Modelled from the spec: the characters the lexer skips between tokens,
    the ASCII white space. *)
Definition skipped (c : ascii) : bool :=
  let n := nat_of_ascii c in
  ((9 <=? n) && (n <=? 13)) || ((28 <=? n) && (n <=? 32)).

(** Modelled from the spec: the lexer of the grammar ([HassILGrammarLexer]),
    which is not among the source files.  It yields the tokens that the
    spec's structural events are made of: the brackets of groups and
    optionals, the alternation separator, the line separator, rule and list
    names between their delimiters ([<name>] and [{name}], as the listener's
    comments write them), and word tokens with their raw text, a quoted
    token keeping its quotes and a backslash keeping the character it
    escapes.  [acc] is the text of the token being read, last character
    first. *)
Fixpoint lex (mode : Mode) (acc : list ascii) (cs : list ascii)
  : option (list Token) :=
  match cs with
  | [] =>
      match mode with
      | Plain => Some (flush acc)
      | _ => None
      end
  | c :: rest =>
      match mode with
      | Plain =>
          if Ascii.eqb c backslash then
            match rest with
            | c2 :: rest2 => lex Plain (c2 :: c :: acc) rest2
            | [] => lex Plain (c :: acc) rest
            end
          else
            match punctuation c with
            | Some t => emit (flush acc ++ [t]) (lex Plain [] rest)
            | None =>
                if skipped c then emit (flush acc) (lex Plain [] rest)
                else if Ascii.eqb c "<"%char
                then emit (flush acc) (lex InRule [] rest)
                else if Ascii.eqb c "{"%char
                then emit (flush acc) (lex InList [] rest)
                else if Ascii.eqb c ">"%char || Ascii.eqb c "}"%char then None
                else if Ascii.eqb c dquote && bool_decide (acc = [])
                then lex Quoted [c] rest
                else lex Plain (c :: acc) rest
            end
      | Quoted =>
          if Ascii.eqb c backslash then
            match rest with
            | c2 :: rest2 => lex Quoted (c2 :: c :: acc) rest2
            | [] => None
            end
          else if Ascii.eqb c dquote
          then emit (flush (c :: acc)) (lex Plain [] rest)
          else if Ascii.eqb c newline then None
          else lex Quoted (c :: acc) rest
      | InRule =>
          if Ascii.eqb c ">"%char
          then emit [TRuleName (string_of_list_ascii (rev acc))]
                    (lex Plain [] rest)
          else if Ascii.eqb c newline then None
          else lex InRule (c :: acc) rest
      | InList =>
          if Ascii.eqb c "}"%char
          then emit [TListName (string_of_list_ascii (rev acc))]
                    (lex Plain [] rest)
          else if Ascii.eqb c newline then None
          else lex InList (c :: acc) rest
      end
  end.

Inductive Bracket : Type := Round | Square.

(** Modelled from the spec: the parser of the grammar
    ([HassILGrammarParser]), which is not among the source files.  It
    accepts balanced groups and optionals, an alternation separator inside a
    group or an optional only, and one sentence per non-blank line; anything
    else is a syntax error, which the front-end reports before the listener
    sees an event.  [open] holds, for every bracket still open, its kind and
    the children read before it; [cur] the children of the innermost open
    context and [done] the finished sentences, both last first. *)
Fixpoint parse (ts : list Token) (open : list (Bracket * list Ctx))
    (cur : list Ctx) (done : list SentenceCtx) : option DocumentCtx :=
  match ts with
  | [] =>
      match open, cur with
      | [], [] => Some (rev done)
      | [], _ => Some (rev (rev cur :: done))
      | _, _ => None
      end
  | t :: ts' =>
      match t with
      | TString s => parse ts' open (WordCtx s :: cur) done
      | TRuleName n => parse ts' open (RuleCtx n :: cur) done
      | TListName n => parse ts' open (ListCtx n :: cur) done
      | TLParen => parse ts' ((Round, cur) :: open) [] done
      | TLBracket => parse ts' ((Square, cur) :: open) [] done
      | TRParen =>
          match open with
          | (Round, outer) :: open' =>
              parse ts' open' (GroupCtx (rev cur) :: outer) done
          | _ => None
          end
      | TRBracket =>
          match open with
          | (Square, outer) :: open' =>
              parse ts' open' (OptionalCtx (rev cur) :: outer) done
          | _ => None
          end
      | TBar =>
          match open with
          | [] => None
          | _ => parse ts' open (AltCtx :: cur) done
          end
      | TNewline =>
          match open, cur with
          | [], [] => parse ts' [] [] done
          | [], _ => parse ts' [] [] (rev cur :: done)
          | _, _ => None
          end
      end
  end.

(** [parser.document()] on the text. *)
Definition document (text : string) : option DocumentCtx :=
  match lex Plain [] (list_ascii_of_string text) with
  | Some ts => parse ts [] [] []
  | None => None
  end.

End FrontEnd.

(** [parse_sentences]: the text is the lines joined by a line feed, with one
    more line feed at its end. *)
Definition joined_text (lines : list string) : string :=
  String.append (Text.join (String Text.newline EmptyString) lines)
                (String Text.newline EmptyString).

Definition parse_sentences (lines : list string) (l : Listener)
  : result Listener :=
  let text := joined_text lines in
  if Text.is_empty (Text.strip text) then Ok l
  else
    match FrontEnd.document text with
    | Some d => walk d l
    | None => Raise SyntaxError
    end.

(** ** Reading a tree back from the store *)

(** Follows the references below an item; [fuel] bounds the number of
    references followed along one path. *)
Fixpoint reify (fuel : nat) (h : Heap) (it : Item) : option Expression :=
  match it with
  | Atomic x => Some (Leaf x)
  | Ref a =>
      match fuel with
      | 0 => None
      | S fuel' =>
          match h !! a with
          | None => None
          | Some o =>
              match mapM (reify fuel' h) (items o) with
              | Some es => Some (Seq (type o) es)
              | None => None
              end
          end
      end
  end.

(** The tree below the object at [a]; no path in a store is longer than the
    store unless it runs through a cycle. *)
Definition tree_at (h : Heap) (a : addr) : option Expression :=
  reify (length h) h (Ref a).

(** The listener's result, [listener.sentences], as trees. *)
Definition sentence_trees (l : Listener) : option (list Expression) :=
  mapM (tree_at (heap l)) (sentences l).

(** Compiling lines with a listener of their own. *)
Definition compile (lines : list string) : result (list Expression) :=
  let* l := parse_sentences lines init in
  match sentence_trees l with
  | Some ts => Ok ts
  | None => Raise DanglingReference
  end.

(** ** The tree a parse tree stands for

    A second, store-free description of what the handlers build, used to
    state what the listener computes on every parse tree.  [Scope] is what a
    group, an optional or a sentence holds while its children are visited:
    plain items before the first separator; afterwards the items seen
    before the first separator ([first]), the branches that later separators
    closed ([mids]) and the items of the branch that is the current target
    ([cur]). *)

Inductive Scope : Type :=
  | Plain (es : list Expression)
  | Alts (first : list Expression) (mids : list (list Expression))
         (cur : list Expression).

Definition add_item (e : Expression) (sc : Scope) : Scope :=
  match sc with
  | Plain es => Plain (es ++ [e])
  | Alts first mids cur => Alts first mids (cur ++ [e])
  end.

Definition add_alt (sc : Scope) : Scope :=
  match sc with
  | Plain es => Alts es [] []
  | Alts first mids cur => Alts first (mids ++ [cur]) []
  end.

(** What the first separator leaves of the items before it: nothing when
    there were none, one nested group otherwise. *)
Definition wrap_first (first : list Expression) : list Expression :=
  match first with
  | [] => []
  | _ => [Seq GROUP first]
  end.

Definition branches_of (mids : list (list Expression)) (cur : list Expression)
  : list Expression :=
  map (Seq GROUP) (mids ++ [cur]).

Definition close_group (sc : Scope) : Expression :=
  match sc with
  | Plain es => Seq GROUP es
  | Alts first mids cur =>
      Seq ALTERNATIVE (wrap_first first ++ branches_of mids cur)
  end.

Definition close_optional (sc : Scope) : Expression :=
  match sc with
  | Plain es =>
      Seq ALTERNATIVE
        ((if 1 <? length es then [Seq GROUP es] else es) ++ [Leaf Word_empty])
  | Alts first mids cur =>
      Seq ALTERNATIVE
        ((wrap_first first ++ branches_of mids cur) ++ [Leaf Word_empty])
  end.

Fixpoint denote (c : Ctx) (sc : Scope) : Scope :=
  match c with
  | WordCtx t => add_item (Leaf (classify t)) sc
  | RuleCtx n => add_item (Leaf (RuleReference n)) sc
  | ListCtx n => add_item (Leaf (ListReference n)) sc
  | AltCtx => add_alt sc
  | GroupCtx cs =>
      add_item (close_group (fold_left (fun s c' => denote c' s) cs (Plain []))) sc
  | OptionalCtx cs =>
      add_item (close_optional (fold_left (fun s c' => denote c' s) cs (Plain []))) sc
  end.

Definition denote_children (cs : list Ctx) (sc : Scope) : Scope :=
  fold_left (fun s c => denote c s) cs sc.

Definition denote_sentence (s : SentenceCtx) : Expression :=
  close_group (denote_children s (Plain [])).

(** The number of [Sequence] nodes of a tree, and the longest chain of them. *)
Fixpoint nseq (e : Expression) : nat :=
  match e with
  | Leaf _ => 0
  | Seq _ es => S (list_sum (map nseq es))
  end.

Fixpoint height (e : Expression) : nat :=
  match e with
  | Leaf _ => 0
  | Seq _ es => S (list_max (map height es))
  end.

Definition scope_size (sc : Scope) : nat := nseq (close_group sc).

(** ** The store as a representation of trees *)

(** [repr h L it e]: in the store [h], the item [it] stands for the tree [e],
    and no object of that tree has its address in [L]. *)
#[warnings="-register-all"]
Inductive repr (h : Heap) (L : list addr) : Item -> Expression -> Prop :=
  | repr_atom x : repr h L (Atomic x) (Leaf x)
  | repr_ref a t its es :
      a ∉ L ->
      h !! a = Some (mkSequence t its) ->
      Forall2 (repr h L) its es ->
      repr h L (Ref a) (Seq t es).

(** Every object of [h] outside [W] is the same in [h']. *)
Definition preserves (W : list addr) (h h' : Heap) : Prop :=
  forall a o, a ∉ W -> h !! a = Some o -> h' !! a = Some o.

(** The current target of a scope whose head is [g] and whose branches, in
    the order their separators were seen, are [bs]. *)
Definition target_of (g : addr) (bs : list addr) : addr := default g (last bs).

(** A branch opened by a separator: a [GROUP] at [b] holding [es]. *)
Definition branch_inv (h : Heap) (L : list addr) (b : addr)
    (es : list Expression) : Prop :=
  exists its, h !! b = Some (mkSequence GROUP its) /\ Forall2 (repr h L) its es.

(** The head [g] of a scope that has seen a separator: an [ALTERNATIVE] whose
    items are those standing for [pre] followed by the branches at [bs],
    which hold [brs]. *)
Definition alt_inv (h : Heap) (L : list addr) (g : addr) (bs : list addr)
    (pre : list Expression) (brs : list (list Expression)) : Prop :=
  exists pre_its,
    h !! g = Some (mkSequence ALTERNATIVE (pre_its ++ map Ref bs)) /\
    Forall2 (repr h L) pre_its pre /\
    Forall2 (branch_inv h L) bs brs.

(** The stack entries [g :: bs] of the innermost scope, above entries whose
    addresses are in [B], hold the scope [sc]. *)
Definition scope_inv (h : Heap) (B : list addr) (g : addr) (bs : list addr)
    (sc : Scope) : Prop :=
  let L := B ++ g :: bs in
  NoDup L /\ Forall (fun a => a < length h) L /\
  match sc with
  | Plain es =>
      bs = [] /\
      exists its, h !! g = Some (mkSequence GROUP its) /\
                  Forall2 (repr h L) its es
  | Alts first mids cur => alt_inv h L g bs (wrap_first first) (mids ++ [cur])
  end.

(** The stack below the innermost scope is empty or ends in a marker. *)
Definition below_ok (below : list (option addr)) : Prop :=
  below = [] \/ exists below', below = below' ++ [GROUP_MARKER].

(** What visiting children of the innermost scope does to the listener: the
    stack gains the branches [bs_new], all of them new objects; the scope
    holds [sc'] instead of [sc]; no object but the scope's own stack entries
    is written; and the store grows by at least as many objects as the
    scope gains [Sequence] nodes. *)
Definition scope_step (l l' : Listener) (below : list (option addr))
    (B : list addr) (g : addr) (bs bs_new : list addr) (sc sc' : Scope)
  : Prop :=
  _sequences l' = below ++ map Some (g :: bs ++ bs_new) /\
  sentences l' = sentences l /\
  _sentence l' = _sentence l /\
  scope_inv (heap l') B g (bs ++ bs_new) sc' /\
  preserves (g :: bs) (heap l) (heap l') /\
  length (heap l) <= length (heap l') /\
  Forall (fun a => length (heap l) <= a) bs_new /\
  scope_size sc' + length (heap l) <= scope_size sc + length (heap l').

(** Visiting the context [c] inside any scope succeeds and leaves the scope
    holding what [denote c] says. *)
Definition walks (c : Ctx) : Prop :=
  forall l below B g bs sc,
    _sequences l = below ++ map Some (g :: bs) ->
    below_ok below ->
    scope_inv (heap l) B g bs sc ->
    exists l' bs_new,
      run (events_of c) l = Ok l' /\
      scope_step l l' below B g bs bs_new sc (denote c sc).

(** [subexpr e t]: [e] occurs in [t]. *)
Inductive subexpr (e : Expression) : Expression -> Prop :=
  | subexpr_here : subexpr e e
  | subexpr_item t es e' : e' ∈ es -> subexpr e e' -> subexpr e (Seq t es).

(** ** Spans of the source and nodes of the tree *)

(** The item a context adds to its scope; a separator adds none. *)
Definition expr_of (c : Ctx) : option Expression :=
  match c with
  | WordCtx t => Some (Leaf (classify t))
  | RuleCtx n => Some (Leaf (RuleReference n))
  | ListCtx n => Some (Leaf (ListReference n))
  | AltCtx => None
  | GroupCtx cs => Some (close_group (denote_children cs (Plain [])))
  | OptionalCtx cs => Some (close_optional (denote_children cs (Plain [])))
  end.

(** The items of a run of children. *)
Definition items_of (cs : list Ctx) : list Expression := omap expr_of cs.

(** The children of a scope, split at its separators: its alternative
    branches, in order.  A scope without a separator has one branch. *)
Fixpoint split_alts (cs : list Ctx) : list (list Ctx) :=
  match cs with
  | [] => [[]]
  | AltCtx :: cs' => [] :: split_alts cs'
  | c :: cs' =>
      match split_alts cs' with
      | b :: bs => (c :: b) :: bs
      | [] => [[c]]
      end
  end.

(** The branches a scope holds. *)
Definition branches (sc : Scope) : list (list Expression) :=
  match sc with
  | Plain es => [es]
  | Alts first mids cur => first :: mids ++ [cur]
  end.

(** [join_last brs b rest]: the branches [brs], the last of them continued
    by [b], followed by the branches [rest]. *)
Fixpoint join_last (brs : list (list Expression)) (b : list Expression)
    (rest : list (list Expression)) : list (list Expression) :=
  match brs with
  | [] => b :: rest
  | [x] => (x ++ b) :: rest
  | x :: brs' => x :: join_last brs' b rest
  end.

(** An empty first branch leaves no item. *)
Definition drop_empty_first (brs : list (list Expression))
  : list (list Expression) :=
  match brs with
  | [] :: rest => rest
  | _ => brs
  end.

(** [item] is the whole branch [b]: the branch wrapped in a nested group, or
    the only element of a branch of one element. *)
Definition whole_alternative (b : list Expression) (item : Expression) : Prop :=
  item = Seq GROUP b \/ b = [item].

(** If [e] is an [ALTERNATIVE], its items are, in order, the branches of
    the children [cs] as whole alternatives, followed by [tail]. *)
Definition complete_alternatives (cs : list Ctx) (tail : list Expression)
    (e : Expression) : Prop :=
  forall items,
    e = Seq ALTERNATIVE items ->
    exists items',
      items = items' ++ tail /\
      Forall2 whole_alternative
              (drop_empty_first (map items_of (split_alts cs))) items'.

(** [occurs c cs]: the context [c] is one of [cs] or lies inside one of
    them. *)
Inductive occurs (c : Ctx) : list Ctx -> Prop :=
  | occurs_here cs : c ∈ cs -> occurs c cs
  | occurs_group cs cs' : GroupCtx cs' ∈ cs -> occurs c cs' -> occurs c cs
  | occurs_optional cs cs' :
      OptionalCtx cs' ∈ cs -> occurs c cs' -> occurs c cs.

(** Some element of some branch of the scope contains [e]. *)
Definition holds (e : Expression) (sc : Scope) : Prop :=
  exists b e', b ∈ branches sc /\ e' ∈ b /\ subexpr e e'.

(** The items an [ALTERNATIVE] may have: nested groups, one per branch,
    followed by the empty word when the scope is an optional; or the only
    element of an optional without a separator, followed by the empty
    word. *)
Definition is_group (e : Expression) : Prop := exists es, e = Seq GROUP es.

Definition alternative_shape (items : list Expression) : Prop :=
  (exists gs tail,
      items = gs ++ tail /\ Forall is_group gs /\
      (tail = [] \/ tail = [Leaf Word_empty]))
  \/ (exists x, items = [x; Leaf Word_empty]).

(** Every [ALTERNATIVE] of the tree has such items. *)
Definition well_shaped (t : Expression) : Prop :=
  forall items, subexpr (Seq ALTERNATIVE items) t -> alternative_shape items.

Definition scope_well_shaped (sc : Scope) : Prop :=
  forall b x, b ∈ branches sc -> x ∈ b -> well_shaped x.

(** ** Notions used in the statements *)

(** The text [enterWord] classifies: the token stripped, without escapes
    and without its outer quotes. *)
Definition cleaned (raw : string) : string :=
  Patterns.remove_quotes (Patterns.remove_escapes (Text.strip raw)).

(** A token between double quotes. *)
Definition quoted (s : string) : string :=
  String Text.dquote (String.append s (String Text.dquote EmptyString)).

(** A line of white space only. *)
Definition blank (s : string) : Prop :=
  forallb Text.is_space (list_ascii_of_string s) = true.

(** The listener after the events of [(a], about to see a separator. *)
Definition listener_in_group : Listener :=
  {| heap := [mkSequence GROUP []; mkSequence GROUP [Atomic (Word "a")]];
     sentences := [];
     _sentence := Some 0;
     _sequences := [Some 0; GROUP_MARKER; Some 1] |}.

(** The listener after the events of [a] at the top of a sentence. *)
Definition listener_in_sentence : Listener :=
  {| heap := [mkSequence GROUP [Atomic (Word "a")]];
     sentences := [];
     _sentence := Some 0;
     _sequences := [Some 0] |}.

(** The listener after [parse_sentences] on the one line [a]. *)
Definition listener_after_a : Listener :=
  {| heap := [mkSequence GROUP [Atomic (Word "a")]];
     sentences := [0];
     _sentence := None;
     _sequences := [] |}.

(** ** Notions used for further properties *)

(** The stack of a listener that has only seen handlers return: every
    sequence on it is in the store, and every marker has a sequence right
    above it, so that no marker is on top and no two markers touch. *)
Definition stack_ok (l : Listener) : Prop :=
  (forall a, Some a ∈ _sequences l -> a < length (heap l)) /\
  (forall i, _sequences l !! i = Some GROUP_MARKER ->
             exists a, _sequences l !! S i = Some (Some a)).

(** The exceptions a run of handlers on a new listener can end with. *)
Definition reachable_error (e : Error) : Prop :=
  e = AssertionError "No target sequence" \/
  e = AssertionError "Bad sequence stack" \/
  e = AssertionError "No sentence started" \/
  e = IndexError.

(** [compiles_to c t]: a sentence made of the context [c] alone compiles, on
    a new listener, to a root [GROUP] whose only item is [t]. *)
Definition compiles_to (c : Ctx) (t : Expression) : Prop :=
  exists l,
    walk [[c]] init = Ok l /\ sentence_trees l = Some [Seq GROUP [t]].

(** The tree a sentence compiles to on a listener of its own. *)
Definition sentence_compiles_to (s : SentenceCtx) (t : Expression) : Prop :=
  exists l, walk [s] init = Ok l /\ sentence_trees l = Some [t].

(** The atom of a word, rule or list context. *)
Definition leaf_atom (c : Ctx) : option Atom :=
  match c with
  | WordCtx t => Some (classify t)
  | RuleCtx n => Some (RuleReference n)
  | ListCtx n => Some (ListReference n)
  | _ => None
  end.

(** What [exitOptional] makes of the sequence [exitGroup] would attach. *)
Definition optional_of (t : Expression) : Expression :=
  match t with
  | Seq ALTERNATIVE items => Seq ALTERNATIVE (items ++ [Leaf Word_empty])
  | Seq GROUP items =>
      Seq ALTERNATIVE
        ((if 1 <? length items then [Seq GROUP items] else items)
           ++ [Leaf Word_empty])
  | Leaf x => Leaf x
  end.

(** * Properties *)

Section Basics.

Lemma run_app evs1 evs2 l :
  run (evs1 ++ evs2) l = (let* l' := run evs1 l in run evs2 l').
Proof.
  revert l. induction evs1 as [|ev evs1 IH]; intros l; simpl; [done|].
  destruct (dispatch ev l) as [l'|e]; simpl; [apply IH|done].
Qed.

End Basics.

(** ** Induction principles for the nested types *)

Section Induction.

Lemma Expression_ind' (P : Expression -> Prop) :
  (forall x, P (Leaf x)) ->
  (forall t es, Forall P es -> P (Seq t es)) ->
  forall e, P e.
Proof.
  intros Hl Hs. fix IH 1. intros [x|t es]; [apply Hl|].
  apply Hs. induction es as [|e es IHes]; constructor; [apply IH|apply IHes].
Qed.

Lemma Ctx_ind' (P : Ctx -> Prop) :
  (forall t, P (WordCtx t)) ->
  (forall n, P (RuleCtx n)) ->
  (forall n, P (ListCtx n)) ->
  P AltCtx ->
  (forall cs, Forall P cs -> P (GroupCtx cs)) ->
  (forall cs, Forall P cs -> P (OptionalCtx cs)) ->
  forall c, P c.
Proof.
  intros Hw Hr Hl Ha Hg Ho. fix IH 1. intros [t|n|n| |cs|cs].
  - apply Hw.
  - apply Hr.
  - apply Hl.
  - apply Ha.
  - apply Hg. induction cs as [|c cs IHcs]; constructor; [apply IH|apply IHcs].
  - apply Ho. induction cs as [|c cs IHcs]; constructor; [apply IH|apply IHcs].
Qed.

Lemma repr_ind' h L (P : Item -> Expression -> Prop) :
  (forall x, P (Atomic x) (Leaf x)) ->
  (forall a t its es,
      a ∉ L -> h !! a = Some (mkSequence t its) ->
      Forall2 (repr h L) its es -> Forall2 P its es ->
      P (Ref a) (Seq t es)) ->
  forall it e, repr h L it e -> P it e.
Proof.
  intros Ha Hr. fix IH 3. intros it e [x|a t its es Hn Hl Hf]; [apply Ha|].
  apply (Hr a t its es Hn Hl Hf). clear Hl.
  induction Hf as [|i e' its' es' Hie _ IHf]; constructor; [apply IH, Hie|apply IHf].
Qed.

End Induction.

(** ** Representation lemmas *)

Section Repr.

Lemma repr_transport h h' L L' it e :
  repr h L it e ->
  preserves L h h' ->
  (forall a, a ∉ L -> a < length h -> a ∉ L') ->
  repr h' L' it e.
Proof.
  intros Hr Hp HL. induction Hr as [x|a t its es Hn Hl _ IH] using repr_ind'.
  - constructor.
  - econstructor.
    + apply HL; [done|]. by eapply lookup_lt_Some.
    + by apply Hp.
    + done.
Qed.

Lemma repr_preserves h h' L it e :
  repr h L it e -> preserves L h h' -> repr h' L it e.
Proof. intros Hr Hp. eapply repr_transport; eauto. Qed.

Lemma repr_weaken h L L' it e :
  repr h L it e -> L' ⊆ L -> repr h L' it e.
Proof.
  intros Hr Hs. eapply repr_transport; [done| |].
  - by intros a o _ ?.
  - intros a Ha _ Hin. apply Ha, Hs, Hin.
Qed.

Lemma Forall2_repr_transport h h' L L' its es :
  Forall2 (repr h L) its es ->
  preserves L h h' ->
  (forall a, a ∉ L -> a < length h -> a ∉ L') ->
  Forall2 (repr h' L') its es.
Proof.
  intros Hf Hp HL. eapply Forall2_impl; [done|].
  intros it e Hr. by eapply repr_transport.
Qed.

Lemma height_le_nseq e : height e <= nseq e.
Proof.
  induction e as [x|t es IH] using Expression_ind'; simpl; [lia|].
  apply le_n_S. induction IH as [|e es He _ IHes]; simpl; [lia|]. lia.
Qed.

Lemma repr_reify h L it e :
  repr h L it e -> forall fuel, height e <= fuel -> reify fuel h it = Some e.
Proof.
  intros Hr. induction Hr as [x|a t its es Hn Hl _ IH] using repr_ind';
    intros fuel Hfuel.
  - by destruct fuel.
  - change (height (Seq t es)) with (S (list_max (map height es))) in Hfuel.
    destruct fuel as [|fuel]; [lia|]. simpl. rewrite Hl. simpl.
    assert (mapM (reify fuel h) its = Some es) as ->; [|done].
    apply mapM_Some. apply le_S_n in Hfuel.
    apply (proj1 (list_max_le _ _)) in Hfuel.
    apply (proj1 (List.Forall_map _ _ _)) in Hfuel. revert Hfuel. clear Hl.
    induction IH as [|i e its' es' Hie _ IHf]; intros Hfuel; constructor;
      apply Forall_cons in Hfuel as [He Hes]; simpl in He; auto.
Qed.

Lemma reify_mono h h' fuel fuel' it e :
  reify fuel h it = Some e ->
  fuel <= fuel' ->
  (forall a o, h !! a = Some o -> h' !! a = Some o) ->
  reify fuel' h' it = Some e.
Proof.
  intros Hr Hle Hext. revert fuel' it e Hr Hle.
  induction fuel as [|fuel IH]; intros fuel' [x|a] e Hr Hle; simpl in *;
    try done.
  - destruct fuel'; simpl; done.
  - destruct fuel'; simpl; done.
  - destruct fuel' as [|fuel']; [lia|]. simpl.
    destruct (h !! a) as [o|] eqn:Ho; [|done].
    rewrite (Hext _ _ Ho).
    destruct (mapM (reify fuel h) (items o)) as [es|] eqn:Hes; [|done].
    simplify_eq.
    assert (mapM (reify fuel' h') (items o) = Some es) as ->; [|done].
    apply mapM_Some. apply mapM_Some in Hes.
    eapply Forall2_impl; [done|]. intros i e' Hi. simpl in Hi.
    eapply IH; [done|lia].
Qed.

End Repr.

#[local] Set Warnings "-clear-no-such-hyp".

(** ** Stack lemmas *)

Section Stack.

Lemma last_map_Some (g : nat) bs :
  last (map Some (g :: bs)) = Some (Some (target_of g bs)).
Proof.
  unfold target_of. revert g. induction bs as [|b bs IH]; intros g; [done|].
  change (map Some (g :: b :: bs)) with (Some g :: map Some (b :: bs)).
  rewrite last_cons, IH. simpl. f_equal. f_equal.
  rewrite last_cons. by destruct (last bs).
Qed.

Lemma last_sequence_scope l below g bs :
  _sequences l = below ++ map Some (g :: bs) ->
  last_sequence l = Ok (target_of g bs).
Proof.
  intros Hs. unfold last_sequence. rewrite Hs.
  rewrite last_app, last_map_Some.
  by destruct below.
Qed.

Lemma scan_parent_Somes ys (g : nat) rest p :
  scan_parent (map Some ys ++ Some g :: rest) p = scan_parent rest (Some g).
Proof. revert p. induction ys as [|y ys IH]; intros p; simpl; [done|apply IH]. Qed.

Lemma rev_map_Some_cons (g : nat) bs :
  rev (map Some (g :: bs)) = map Some (rev bs) ++ [Some g].
Proof. simpl. by rewrite map_rev. Qed.

Lemma last_parent_sequence_scope l below g bs :
  _sequences l = below ++ map Some (g :: bs) ->
  below_ok below ->
  last_parent_sequence l = Ok g.
Proof.
  intros Hs Hb. unfold last_parent_sequence. rewrite Hs.
  rewrite rev_app_distr, rev_map_Some_cons, <- app_assoc. simpl.
  rewrite scan_parent_Somes.
  assert (scan_parent (rev below) (Some g) = Some g) as ->.
  { destruct Hb as [->|[below' ->]]; [done|].
    by rewrite rev_app_distr. }
  by destruct below.
Qed.

Lemma pop_until_marker_Somes ys (g : nat) rest p :
  pop_until_marker (map Some ys ++ Some g :: None :: rest) p
  = Ok (Some g, None :: rest).
Proof. revert p. induction ys as [|y ys IH]; intros p; simpl; [done|apply IH]. Qed.

Lemma rev_scope_stack below (g : nat) bs :
  rev (below ++ GROUP_MARKER :: map Some (g :: bs))
  = map Some (rev bs) ++ Some g :: GROUP_MARKER :: rev below.
Proof.
  rewrite rev_app_distr. simpl. rewrite <- map_rev.
  by rewrite <- !app_assoc.
Qed.

Lemma pop_group_scope l below g bs :
  _sequences l = below ++ GROUP_MARKER :: map Some (g :: bs) ->
  _pop_group l = Ok (g, set_sequences below l).
Proof.
  intros Hs. unfold _pop_group. rewrite Hs.
  assert ((length (below ++ GROUP_MARKER :: map Some (g :: bs)) <=? 1) = false)
    as ->.
  { apply Nat.leb_gt. rewrite length_app. simpl. lia. }
  rewrite rev_scope_stack.
  destruct (rev bs) as [|b rbs]; simpl.
  - by rewrite rev_involutive.
  - unfold GROUP_MARKER. rewrite pop_until_marker_Somes. simpl.
    by rewrite rev_involutive.
Qed.

End Stack.

(** ** Store lemmas *)

Section Store.

Lemma preserves_refl W h : preserves W h h.
Proof. by intros a o _ ?. Qed.

Lemma preserves_mono W W' h h' :
  W ⊆ W' -> preserves W h h' -> preserves W' h h'.
Proof. intros Hs Hp a o Ha. apply Hp. intros Hin. apply Ha, Hs, Hin. Qed.

Lemma preserves_alloc W (h : list Sequence) o : preserves W h (h ++ [o]).
Proof. intros a o' _ Hl. by apply lookup_app_l_Some. Qed.

Lemma preserves_store W (h : list Sequence) a o :
  a ∈ W -> preserves W h (<[a := o]> h).
Proof.
  intros Hin b o' Hb Hl. rewrite list_lookup_insert_ne; [done|].
  intros ->. done.
Qed.

(** Composition, when the second step may also touch objects allocated by
    the first. *)
Lemma preserves_trans W W' (h h1 h2 : list Sequence) :
  preserves W h h1 ->
  preserves W' h1 h2 ->
  (forall a, a ∈ W' -> a ∈ W \/ length h <= a) ->
  preserves W h h2.
Proof.
  intros H1 H2 HW a o Ha Hl. apply H2; [|by apply H1].
  intros Hin. destruct (HW a Hin) as [?|Hge]; [done|].
  apply lookup_lt_Some in Hl. lia.
Qed.

Lemma lookup_alloc (h : list Sequence) o : (h ++ [o]) !! length h = Some o.
Proof. by apply list_lookup_middle. Qed.

End Store.

(** ** Scope invariant *)

Section ScopeInv.

Lemma scope_size_add_item e sc :
  scope_size (add_item e sc) = scope_size sc + nseq e.
Proof.
  destruct sc as [es|pre mids cur]; unfold scope_size; simpl.
  - rewrite map_app, list_sum_app. simpl. lia.
  - unfold branches_of. rewrite !map_app, !list_sum_app. simpl.
    rewrite !map_app, !list_sum_app. simpl. lia.
Qed.

Lemma scope_inv_transport h h' B g bs sc :
  scope_inv h B g bs sc ->
  preserves [] h h' ->
  length h <= length h' ->
  scope_inv h' B g bs sc.
Proof.
  intros (Hnd & Hlt & Hsc) Hp Hlen.
  assert (Hp' : preserves (B ++ g :: bs) h h').
  { eapply preserves_mono; [|done]. set_solver. }
  assert (Hlook : forall a o, h !! a = Some o -> h' !! a = Some o).
  { intros a o. apply Hp. set_solver. }
  split; [done|]. split.
  { eapply Forall_impl; [done|]. simpl. lia. }
  destruct sc as [es|pre mids cur].
  - destruct Hsc as (-> & its & Hg & Hf). split; [done|].
    exists its. split; [by apply Hlook|].
    eapply Forall2_repr_transport; eauto.
  - destruct Hsc as (pre_its & Hg & Hpre & Hbr).
    exists pre_its. split; [by apply Hlook|]. split.
    + eapply Forall2_repr_transport; eauto.
    + eapply Forall2_impl; [done|]. intros b es (its & Hb & Hf).
      exists its. split; [by apply Hlook|].
      eapply Forall2_repr_transport; eauto.
Qed.

Lemma branches_repr h B L bs brs :
  Forall (fun b => b ∉ B) bs ->
  (forall its es, Forall2 (repr h L) its es -> Forall2 (repr h B) its es) ->
  Forall2 (branch_inv h L) bs brs ->
  Forall2 (repr h B) (map Ref bs) (map (Seq GROUP) brs).
Proof.
  intros HB Hw Hbr. revert HB.
  induction Hbr as [|b es bs' brs' (its & Hb & Hf) _ IH]; intros HB; simpl;
    constructor; apply Forall_cons in HB as [? ?].
  - econstructor; eauto.
  - by apply IH.
Qed.

Lemma scope_close_group h B g bs sc :
  scope_inv h B g bs sc -> repr h B (Ref g) (close_group sc).
Proof.
  intros (Hnd & Hlt & Hsc).
  assert (HgB : g ∉ B).
  { apply NoDup_app in Hnd as (_ & Hd & _). intros Hin.
    apply (Hd g Hin). set_solver. }
  assert (Hw : forall its es,
             Forall2 (repr h (B ++ g :: bs)) its es ->
             Forall2 (repr h B) its es).
  { intros its es Hf. eapply Forall2_impl; [done|]. intros it e Hr.
    eapply repr_weaken; [done|]. set_solver. }
  destruct sc as [es|pre mids cur]; simpl.
  - destruct Hsc as (-> & its & Hg & Hf).
    econstructor; eauto.
  - destruct Hsc as (pre_its & Hg & Hpre & Hbr).
    econstructor; [done|done|].
    apply Forall2_app; [by apply Hw|].
    unfold branches_of. eapply branches_repr; [|done|done].
    apply Forall_forall. intros b Hb Hin.
    apply NoDup_app in Hnd as (_ & Hd & _). apply (Hd b Hin). set_solver.
Qed.

End ScopeInv.

(** ** Adding an item *)

Section Handlers.

Lemma target_of_snoc g bs b : target_of g (bs ++ [b]) = b.
Proof. unfold target_of. by rewrite last_snoc. Qed.

Lemma target_of_elem g bs : target_of g bs ∈ g :: bs.
Proof.
  unfold target_of. destruct (last bs) as [b|] eqn:Hl; simpl; [|set_solver].
  apply last_Some in Hl as [bs' ->]. set_solver.
Qed.

Lemma Forall2_snoc_inv_r {A C} (P : A -> C -> Prop) l k y :
  Forall2 P l (k ++ [y]) ->
  exists l' x, l = l' ++ [x] /\ Forall2 P l' k /\ P x y.
Proof.
  intros (l1 & l2 & H1 & H2 & ->)%Forall2_app_inv_r.
  apply Forall2_cons_inv_r in H2 as (x & l3 & Hx & H3 & ->).
  apply Forall2_nil_inv_r in H3 as ->. eauto.
Qed.

Lemma Forall2_impl_elem {A C} (P Q : A -> C -> Prop) l k :
  Forall2 P l k ->
  (forall x y, x ∈ l -> P x y -> Q x y) ->
  Forall2 Q l k.
Proof.
  induction 1 as [|x y l k Hxy _ IH]; intros HPQ; constructor.
  - apply HPQ; [set_solver|done].
  - apply IH. intros x' y' Hin. apply HPQ. set_solver.
Qed.

Lemma scope_add_item h B g bs sc it e :
  scope_inv h B g bs sc ->
  repr h (B ++ g :: bs) it e ->
  exists o,
    h !! target_of g bs = Some o /\
    scope_inv (<[target_of g bs := mkSequence (type o) (items o ++ [it])]> h)
              B g bs (add_item e sc).
Proof.
  intros (Hnd & Hlt & Hsc) Hit.
  set (L := B ++ g :: bs) in *.
  assert (Hp : forall o, preserves L h (<[target_of g bs := o]> h)).
  { intros o. apply preserves_store. unfold L.
    pose proof (target_of_elem g bs) as Hel. set_solver. }
  assert (Hlt' : forall o,
             Forall (fun a => a < length (<[target_of g bs := o]> h)) L).
  { intros o. by rewrite length_insert. }
  destruct sc as [es|pre mids cur].
  - destruct Hsc as (-> & its & Hg & Hf). exists (mkSequence GROUP its).
    split; [done|]. split; [done|]. split; [done|]. split; [done|].
    exists (its ++ [it]). simpl. split.
    + apply list_lookup_insert_eq. by eapply lookup_lt_Some.
    + apply Forall2_app.
      * eapply Forall2_impl; [done|]. intros ???. by eapply repr_preserves.
      * constructor; [|constructor]. by eapply repr_preserves.
  - destruct Hsc as (pre_its & Hg & Hpre & Hbr).
    apply Forall2_snoc_inv_r in Hbr as (bs' & b & Hbs & Hmids & Hcur).
    destruct Hcur as (cur_its & Hb & Hcur).
    assert (Hnd' : NoDup (g :: bs' ++ [b])).
    { subst bs. unfold L in Hnd. by apply NoDup_app in Hnd as (_ & _ & ?). }
    assert (Ht : target_of g bs = b) by (subst bs; apply target_of_snoc).
    rewrite Ht in *.
    exists (mkSequence GROUP cur_its). split; [done|].
    split; [done|]. split; [done|].
    exists pre_its. simpl. split; [|split].
    + rewrite list_lookup_insert_ne; [done|].
      intros ->. apply NoDup_cons in Hnd' as [Hn _]. set_solver.
    + eapply Forall2_impl; [done|]. intros ???. by eapply repr_preserves.
    + subst bs. apply Forall2_app.
      * apply NoDup_cons in Hnd' as [_ Hnd'].
        apply NoDup_app in Hnd' as (_ & Hd & _).
        eapply Forall2_impl_elem; [done|].
        intros b' es' Hin (its' & Hb' & Hf'). exists its'. split.
        -- rewrite list_lookup_insert_ne; [done|]. intros ->.
           apply (Hd b' Hin). set_solver.
        -- eapply Forall2_impl; [done|]. intros ???.
           by eapply repr_preserves.
      * constructor; [|constructor]. exists (cur_its ++ [it]). split.
        -- apply list_lookup_insert_eq. by eapply lookup_lt_Some.
        -- apply Forall2_app.
           ++ eapply Forall2_impl; [done|]. intros ???.
              by eapply repr_preserves.
           ++ constructor; [|constructor]. by eapply repr_preserves.
Qed.

End Handlers.

(** ** Separators *)

Section Steps.

Lemma attach_scope l below B g bs sc it e :
  _sequences l = below ++ map Some (g :: bs) ->
  scope_inv (heap l) B g bs sc ->
  repr (heap l) (B ++ g :: bs) it e ->
  exists l',
    (let* target := last_sequence l in items_append target it l) = Ok l' /\
    _sequences l' = _sequences l /\
    sentences l' = sentences l /\
    _sentence l' = _sentence l /\
    scope_inv (heap l') B g bs (add_item e sc) /\
    preserves (g :: bs) (heap l) (heap l') /\
    length (heap l') = length (heap l).
Proof.
  intros Hs Hinv Hit.
  destruct (scope_add_item _ _ _ _ _ _ _ Hinv Hit) as (o & Ho & Hinv').
  rewrite (last_sequence_scope _ _ _ _ Hs). simpl.
  unfold items_append, load. rewrite Ho. simpl.
  eexists. split; [done|]. simpl.
  do 4 (split; [done|]). split.
  - apply preserves_store, target_of_elem.
  - apply length_insert.
Qed.

Lemma leaf_scope l below B g bs sc x :
  _sequences l = below ++ map Some (g :: bs) ->
  scope_inv (heap l) B g bs sc ->
  exists l',
    (let* target := last_sequence l in items_append target (Atomic x) l) = Ok l' /\
    scope_step l l' below B g bs [] sc (add_item (Leaf x) sc).
Proof.
  intros Hs Hinv.
  destruct (attach_scope l below B g bs sc (Atomic x) (Leaf x) Hs Hinv)
    as (l' & Hrun & Hs' & Hsen & Hcur & Hinv' & Hp & Hlen); [constructor|].
  exists l'. split; [done|]. unfold scope_step. rewrite app_nil_r.
  split; [congruence|]. do 4 (split; [done|]).
  split; [lia|]. split; [done|].
  rewrite scope_size_add_item. simpl. lia.
Qed.

Lemma items_append_ok l a o it :
  heap l !! a = Some o ->
  items_append a it l = Ok (store a (mkSequence (type o) (items o ++ [it])) l).
Proof. intros Ho. unfold items_append, load. by rewrite Ho. Qed.

Lemma NoDup_snoc_fresh (L : list nat) n :
  NoDup L -> Forall (fun a => a < n) L -> NoDup (L ++ [n]).
Proof.
  intros Hnd Hlt. apply NoDup_app. split; [done|]. split; [|apply NoDup_singleton].
  intros a Ha Hin. apply list_elem_of_singleton in Hin as ->.
  eapply Forall_forall in Hlt; [|done]. lia.
Qed.

Lemma open_branch h B g bs first brs o :
  NoDup (B ++ g :: bs) ->
  Forall (fun a => a < length h) (B ++ g :: bs) ->
  alt_inv h (B ++ g :: bs) g bs (wrap_first first) brs ->
  h !! g = Some o ->
  scope_inv
    (<[g := mkSequence (type o) (items o ++ [Ref (length h)])]>
       (h ++ [mkSequence GROUP []]))
    B g (bs ++ [length h]) (Alts first brs []).
Proof.
  intros Hnd Hlt (pre_its & Hg & Hpre & Hbr) Ho.
  rewrite Hg in Ho. injection Ho as <-. simpl.
  set (ng := length h). set (L := B ++ g :: bs) in *.
  set (h3 := <[g := _]> _).
  assert (HL' : B ++ g :: bs ++ [ng] = L ++ [ng]).
  { unfold L. by rewrite <- app_assoc. }
  assert (Hglt : g < length h) by (by eapply lookup_lt_Some).
  assert (Hp : preserves L h h3).
  { eapply (preserves_trans L L); [apply preserves_alloc| |by left].
    apply preserves_store. unfold L. set_solver. }
  assert (Hav : forall a, a ∉ L -> a < length h -> a ∉ L ++ [ng]).
  { intros a Ha Halt Hin. apply elem_of_app in Hin as [?|Hin]; [done|].
    apply list_elem_of_singleton in Hin. unfold ng in Hin. lia. }
  assert (Hbs : forall b, b ∈ bs -> b <> g).
  { intros b Hb ->. unfold L in Hnd.
    apply NoDup_app in Hnd as (_ & _ & Hnd). apply NoDup_cons in Hnd as [? _].
    done. }
  unfold scope_inv. rewrite HL'. split; [by apply NoDup_snoc_fresh|]. split.
  { unfold h3. rewrite length_insert, length_app. simpl.
    apply Forall_app. split.
    - eapply Forall_impl; [done|]. simpl. lia.
    - constructor; [unfold ng; lia|constructor]. }
  exists pre_its. split; [|split].
  - unfold h3. rewrite list_lookup_insert_eq.
    + by rewrite map_app, app_assoc.
    + rewrite length_app. simpl. lia.
  - eapply Forall2_repr_transport; eauto.
  - apply Forall2_app.
    + eapply Forall2_impl_elem; [done|].
      intros b es Hin (its & Hb & Hf). exists its. split.
      * unfold h3. rewrite list_lookup_insert_ne; [|by apply not_eq_sym, Hbs].
        by apply lookup_app_l_Some.
      * eapply Forall2_repr_transport; eauto.
    + constructor; [|constructor]. exists []. split; [|constructor].
      unfold h3. rewrite list_lookup_insert_ne; [|unfold ng; lia].
      apply lookup_alloc.
Qed.

Lemma group_to_alternative_scope l B g bs sc o :
  scope_inv (heap l) B g bs sc ->
  heap l !! g = Some o ->
  exists first brs,
    add_alt sc = Alts first brs [] /\
    alt_inv (heap (group_to_alternative g o l)) (B ++ g :: bs) g bs
            (wrap_first first) brs /\
    _sequences (group_to_alternative g o l) = _sequences l /\
    sentences (group_to_alternative g o l) = sentences l /\
    _sentence (group_to_alternative g o l) = _sentence l /\
    preserves (g :: bs) (heap l) (heap (group_to_alternative g o l)) /\
    length (heap l) <= length (heap (group_to_alternative g o l)) /\
    scope_size (add_alt sc) + length (heap l)
    <= scope_size sc + length (heap (group_to_alternative g o l)) + 1.
Proof.
  intros (Hnd & Hlt & Hsc) Ho. unfold group_to_alternative.
  destruct sc as [es|first mids cur].
  - destruct Hsc as (-> & its & Hg & Hf). rewrite Hg in Ho.
    injection Ho as <-. simpl.
    assert (Hglt : g < length (heap l)) by (by eapply lookup_lt_Some).
    destruct Hf as [|i e its es Hi Hf].
    + exists [], []. simpl. split; [done|]. split.
      { exists []. simpl. split; [|split; constructor].
        by apply list_lookup_insert_eq. }
      do 3 (split; [done|]). split.
      { apply preserves_store. set_solver. }
      rewrite length_insert. unfold scope_size. simpl. lia.
    + exists (e :: es), []. simpl. split; [done|].
      set (h1 := <[g := _]> _).
      assert (Hp0 : preserves [g] (heap l) h1).
      { eapply (preserves_trans _ [g]); [apply preserves_alloc| |by left].
        apply preserves_store. set_solver. }
      assert (Hp : preserves (B ++ [g]) (heap l) h1).
      { eapply preserves_mono; [|done]. set_solver. }
      split.
      { exists [Ref (length (heap l))]. simpl. split; [|split; [|constructor]].
        - unfold h1. apply list_lookup_insert_eq. rewrite length_app. simpl. lia.
        - constructor; [|constructor]. econstructor.
          + intros Hin. eapply Forall_forall in Hlt; [|done]. lia.
          + unfold h1. rewrite list_lookup_insert_ne; [|lia]. apply lookup_alloc.
          + eapply Forall2_repr_transport; [|done|done].
            by constructor. }
      do 3 (split; [done|]). split; [done|].
      unfold h1. rewrite length_insert, length_app. unfold scope_size.
      simpl. lia.
  - destruct Hsc as (pre_its & Hg & Hpre & Hbr). rewrite Hg in Ho.
    injection Ho as <-. simpl.
    exists first, (mids ++ [cur]). split; [done|]. split.
    { by exists pre_its. }
    do 3 (split; [done|]). split; [apply preserves_refl|].
    split; [done|]. unfold scope_size. simpl. unfold branches_of.
    rewrite ?map_app, ?list_sum_app. simpl. rewrite ?map_app, ?list_sum_app.
    simpl. lia.
Qed.

Lemma enterAlt_scope l below B g bs sc :
  _sequences l = below ++ map Some (g :: bs) ->
  below_ok below ->
  scope_inv (heap l) B g bs sc ->
  exists l' ng,
    enterAlt l = Ok l' /\
    scope_step l l' below B g bs [ng] sc (add_alt sc).
Proof.
  intros Hs Hb Hinv.
  pose proof Hinv as (Hnd & Hlt & Hsc).
  assert (exists o, heap l !! g = Some o) as [o Ho].
  { apply lookup_lt_is_Some. eapply Forall_forall in Hlt; [done|]. set_solver. }
  destruct (group_to_alternative_scope l B g bs sc o Hinv Ho)
    as (first & brs & Halt & Hainv & Hs1 & Hsen1 & Hcur1 & Hp1 & Hlen1 & Hsz1).
  set (l1 := group_to_alternative g o l) in *.
  pose proof Hainv as (pre_its & Hg1 & _).
  assert (Hlt1 : Forall (fun a => a < length (heap l1)) (B ++ g :: bs)).
  { eapply Forall_impl; [done|]. simpl. lia. }
  pose proof (open_branch _ _ _ _ _ _ _ Hnd Hlt1 Hainv Hg1) as Hinv3.
  unfold enterAlt. rewrite (last_parent_sequence_scope _ _ _ _ Hs Hb). simpl.
  unfold load. rewrite Ho. simpl. fold l1.
  erewrite items_append_ok; [|simpl; by apply lookup_app_l_Some]. simpl.
  eexists _, (length (heap l1)). split; [done|].
  unfold scope_step. simpl. rewrite Hs1, Hs, Halt.
  split. { rewrite <- app_assoc. simpl. by rewrite map_app. }
  do 2 (split; [done|]). split; [done|]. split.
  { eapply (preserves_trans _ (g :: bs)); [done| |by left].
    eapply (preserves_trans _ (g :: bs)); [apply preserves_alloc| |by left].
    apply preserves_store. set_solver. }
  rewrite length_insert, length_app. simpl.
  split; [lia|]. split; [constructor; [simpl; lia|constructor]|].
  rewrite Halt in Hsz1. unfold scope_size in *. simpl in *. lia.
Qed.

End Steps.

(** ** Brackets *)

Section Brackets.

Lemma enterGroup_scope l below B g bs sc :
  _sequences l = below ++ map Some (g :: bs) ->
  scope_inv (heap l) B g bs sc ->
  exists l1,
    enterGroup l = Ok l1 /\
    _sequences l1
    = (below ++ map Some (g :: bs)) ++ GROUP_MARKER :: map Some [length (heap l)] /\
    heap l1 = heap l ++ [mkSequence GROUP []] /\
    sentences l1 = sentences l /\
    _sentence l1 = _sentence l /\
    scope_inv (heap l1) (B ++ g :: bs) (length (heap l)) [] (Plain []).
Proof.
  intros Hs (Hnd & Hlt & _). unfold enterGroup. simpl.
  eexists. split; [done|]. simpl. rewrite Hs.
  split. { by rewrite <- !app_assoc. }
  do 3 (split; [done|]).
  split; [by apply NoDup_snoc_fresh|]. split.
  { rewrite length_app. simpl. apply Forall_app. split.
    - eapply Forall_impl; [done|]. simpl. lia.
    - constructor; [lia|constructor]. }
  split; [done|]. exists []. split; [apply lookup_alloc|constructor].
Qed.

Lemma exitGroup_scope l h0 below B g bs sc g' bs' sc' :
  _sequences l
  = (below ++ map Some (g :: bs)) ++ GROUP_MARKER :: map Some (g' :: bs') ->
  scope_inv h0 B g bs sc ->
  preserves [] h0 (heap l) ->
  length h0 <= length (heap l) ->
  scope_inv (heap l) (B ++ g :: bs) g' bs' sc' ->
  exists l',
    exitGroup l = Ok l' /\
    _sequences l' = below ++ map Some (g :: bs) /\
    sentences l' = sentences l /\
    _sentence l' = _sentence l /\
    scope_inv (heap l') B g bs (add_item (close_group sc') sc) /\
    preserves (g :: bs) (heap l) (heap l') /\
    length (heap l') = length (heap l).
Proof.
  intros Hs Hout Hp Hlen Hin.
  unfold exitGroup. rewrite (pop_group_scope _ _ _ _ Hs). simpl.
  set (l1 := set_sequences _ l).
  destruct (attach_scope l1 below B g bs sc (Ref g') (close_group sc'))
    as (l' & Hrun & Hs' & Hsen & Hcur & Hinv' & Hp' & Hlen'); [done| | |].
  - by eapply scope_inv_transport.
  - by apply scope_close_group in Hin.
  - exists l'. split; [done|]. by rewrite Hs'.
Qed.

Lemma lookup_insert_insert (h : list Sequence) g o1 o2 :
  g < length h -> <[g := o2]> (<[g := o1]> h) !! g = Some o2.
Proof. intros. apply list_lookup_insert_eq. by rewrite length_insert. Qed.

Lemma optional_close l B g bs sc o :
  scope_inv (heap l) B g bs sc ->
  heap l !! g = Some o ->
  exists l3,
    items_append g (Atomic Word_empty) (optional_to_alternative g o l) = Ok l3 /\
    _sequences l3 = _sequences l /\
    sentences l3 = sentences l /\
    _sentence l3 = _sentence l /\
    repr (heap l3) B (Ref g) (close_optional sc) /\
    preserves [g] (heap l) (heap l3) /\
    length (heap l) <= length (heap l3) /\
    nseq (close_optional sc) + length (heap l)
    <= scope_size sc + length (heap l3).
Proof.
  intros (Hnd & Hlt & Hsc) Ho.
  assert (Hglt : g < length (heap l)) by (by eapply lookup_lt_Some).
  assert (HgB : g ∉ B).
  { apply NoDup_app in Hnd as (_ & Hd & _). intros Hin.
    apply (Hd g Hin). set_solver. }
  set (L := B ++ g :: bs) in *.
  assert (HgL : g ∈ L) by (unfold L; set_solver).
  assert (Hav : forall a, a ∉ L -> a < length (heap l) -> a ∉ B).
  { intros a Ha _ Hin. apply Ha. unfold L. set_solver. }
  unfold optional_to_alternative.
  destruct sc as [es|pre mids cur].
  - destruct Hsc as (-> & its & Hg & Hf). rewrite Hg in Ho.
    injection Ho as <-. simpl.
    pose proof (Forall2_length _ _ _ Hf) as Hlen. rewrite <- Hlen.
    destruct (1 <? length its) eqn:Hwrap.
    + simpl. unfold store, set_heap. simpl. set (w := length (heap l)).
      set (h2 := <[g := _]> _).
      assert (Hg2 : h2 !! g = Some (mkSequence ALTERNATIVE [Ref w])).
      { unfold h2. apply list_lookup_insert_eq. rewrite length_app. simpl. lia. }
      erewrite items_append_ok; [|exact Hg2]. simpl.
      eexists. split; [done|]. simpl. do 3 (split; [done|]).
      set (h3 := <[g := _]> h2).
      assert (Hp : preserves [g] (heap l) h3).
      { eapply (preserves_trans _ [g]); [apply preserves_alloc| |by left].
        eapply (preserves_trans _ [g]); [| |by left];
          apply preserves_store; set_solver. }
      split; [|split; [done|]].
      * econstructor; [done| |].
        { unfold h3. apply list_lookup_insert_eq. unfold h2.
          rewrite length_insert, length_app. simpl. lia. }
        constructor; [|constructor; [constructor|constructor]].
        econstructor.
        -- intros Hin. assert (HwL : w ∈ L) by (unfold L; set_solver).
           pose proof (proj1 (Forall_forall _ _) Hlt w HwL) as Hwlt.
           simpl in Hwlt. unfold w in Hwlt. lia.
        -- unfold h3, h2. rewrite !list_lookup_insert_ne by (unfold w; lia).
           apply lookup_alloc.
        -- eapply Forall2_repr_transport; [done| |done].
           eapply preserves_mono; [|done]. set_solver.
      * unfold h3, h2. rewrite !length_insert, length_app.
        unfold scope_size. simpl. rewrite Nat.add_0_r. lia.
    + simpl. unfold store, set_heap. simpl.
      erewrite items_append_ok; [|by apply list_lookup_insert_eq]. simpl.
      eexists. split; [done|]. simpl. do 3 (split; [done|]).
      set (h3 := <[g := _]> _).
      assert (Hp : preserves [g] (heap l) h3).
      { eapply (preserves_trans _ [g]); [| |by left];
          apply preserves_store; set_solver. }
      split; [|split; [done|]].
      * econstructor; [done| |].
        { unfold h3. by apply lookup_insert_insert. }
        apply Forall2_app; [|constructor; [constructor|constructor]].
        eapply Forall2_repr_transport; [done| |done].
        eapply preserves_mono; [|done]. set_solver.
      * unfold h3. rewrite !length_insert. unfold scope_size. simpl.
        rewrite map_app, list_sum_app. simpl. lia.
  - destruct Hsc as (pre_its & Hg & Hpre & Hbr). rewrite Hg in Ho.
    injection Ho as <-. simpl.
    erewrite items_append_ok; [|exact Hg]. simpl.
    eexists. split; [done|]. simpl. do 3 (split; [done|]).
    set (h3 := <[g := _]> _).
    assert (Hp : preserves [g] (heap l) h3).
    { apply preserves_store. set_solver. }
    assert (HpL : preserves L (heap l) h3).
    { eapply preserves_mono; [|done]. set_solver. }
    split; [|split; [done|]].
    + econstructor; [done| |].
      { unfold h3. by apply list_lookup_insert_eq. }
      apply Forall2_app; [|constructor; [constructor|constructor]].
      apply Forall2_app.
      * eapply Forall2_repr_transport; eauto.
      * unfold branches_of. eapply (branches_repr _ _ L).
        -- apply Forall_forall. intros b Hb Hin.
           apply NoDup_app in Hnd as (_ & Hd & _). apply (Hd b Hin). set_solver.
        -- intros its es Hf. eapply Forall2_impl; [done|]. intros it e Hr.
           eapply repr_weaken; [done|]. unfold L. set_solver.
        -- eapply Forall2_impl_elem; [done|].
           intros b es Hin (its & Hb & Hf). exists its. split.
           ++ unfold h3. rewrite list_lookup_insert_ne; [done|]. intros <-.
              unfold L in Hnd. apply NoDup_app in Hnd as (_ & _ & Hnd).
              by apply NoDup_cons in Hnd as [? _].
           ++ eapply Forall2_repr_transport; [done|done|done].
    + unfold h3. rewrite length_insert. unfold scope_size. simpl.
      rewrite !map_app, !list_sum_app. simpl. lia.
Qed.

End Brackets.

(** ** The walk *)

Section Walk.

Lemma exitOptional_scope l h0 below B g bs sc g' bs' sc' :
  _sequences l
  = (below ++ map Some (g :: bs)) ++ GROUP_MARKER :: map Some (g' :: bs') ->
  scope_inv h0 B g bs sc ->
  preserves [] h0 (heap l) ->
  length h0 <= length (heap l) ->
  length h0 <= g' ->
  scope_inv (heap l) (B ++ g :: bs) g' bs' sc' ->
  exists l',
    exitOptional l = Ok l' /\
    _sequences l' = below ++ map Some (g :: bs) /\
    sentences l' = sentences l /\
    _sentence l' = _sentence l /\
    scope_inv (heap l') B g bs (add_item (close_optional sc') sc) /\
    preserves (g' :: g :: bs) (heap l) (heap l') /\
    length (heap l) <= length (heap l') /\
    nseq (close_optional sc') + length (heap l)
    <= scope_size sc' + length (heap l').
Proof.
  intros Hs Hout Hp Hlen Hfresh Hin.
  unfold exitOptional. rewrite (pop_group_scope _ _ _ _ Hs). simpl.
  set (l1 := set_sequences _ l).
  assert (exists o, heap l1 !! g' = Some o) as [o Ho].
  { apply lookup_lt_is_Some. destruct Hin as (_ & Hlt & _).
    eapply Forall_forall in Hlt; [done|]. set_solver. }
  unfold load. rewrite Ho. simpl.
  destruct (optional_close l1 (B ++ g :: bs) g' bs' sc' o Hin Ho)
    as (l3 & Hrun & Hs3 & Hsen3 & Hcur3 & Hrepr & Hp3 & Hlen3 & Hsz3).
  rewrite Hrun. simpl.
  assert (Hh1 : heap l1 = heap l) by done.
  assert (Hsen1 : sentences l1 = sentences l) by done.
  assert (Hcur1 : _sentence l1 = _sentence l) by done.
  assert (Hs1 : _sequences l1 = below ++ map Some (g :: bs)) by done.
  clearbody l1. rewrite Hh1 in *.
  assert (Hout3 : scope_inv (heap l3) B g bs sc).
  { eapply scope_inv_transport; [done| |lia].
    eapply (preserves_trans _ [g']); [done|done|].
    intros a ->%list_elem_of_singleton. right. lia. }
  destruct (attach_scope l3 below B g bs sc (Ref g') (close_optional sc'))
    as (l' & Hrun' & Hs' & Hsen' & Hcur' & Hinv' & Hp' & Hlen');
    [congruence|done|done|].
  exists l'. split; [done|]. rewrite Hs', Hs3, Hsen', Hsen3, Hcur', Hcur3.
  do 4 (split; [done|]). rewrite Hlen'. split; [|done].
  eapply (preserves_trans _ (g :: bs)).
  - eapply preserves_mono; [|done]. set_solver.
  - done.
  - intros a Ha. left. set_solver.
Qed.

Lemma scope_step_refl l below B g bs sc :
  _sequences l = below ++ map Some (g :: bs) ->
  scope_inv (heap l) B g bs sc ->
  scope_step l l below B g bs [] sc sc.
Proof.
  intros Hs Hinv. unfold scope_step. rewrite app_nil_r.
  do 4 (split; [done|]). split; [apply preserves_refl|].
  split; [done|]. split; [constructor|done].
Qed.

Lemma scope_step_trans l l1 l2 below B g bs bs1 bs2 sc sc1 sc2 :
  scope_step l l1 below B g bs bs1 sc sc1 ->
  scope_step l1 l2 below B g (bs ++ bs1) bs2 sc1 sc2 ->
  scope_step l l2 below B g bs (bs1 ++ bs2) sc sc2.
Proof.
  intros (Hs1 & Hsen1 & Hcur1 & Hinv1 & Hp1 & Hlen1 & Hfr1 & Hsz1)
         (Hs2 & Hsen2 & Hcur2 & Hinv2 & Hp2 & Hlen2 & Hfr2 & Hsz2).
  unfold scope_step. rewrite app_assoc.
  split; [done|]. split; [congruence|]. split; [congruence|].
  split; [done|]. split.
  { eapply preserves_trans; [done|done|].
    intros a Ha. rewrite app_comm_cons in Ha.
    apply elem_of_app in Ha as [?|Ha]; [by left|right].
    by eapply Forall_forall in Hfr1. }
  split; [lia|]. split; [|lia].
  apply Forall_app. split; [done|].
  eapply Forall_impl; [done|]. simpl. lia.
Qed.

Lemma walk_children cs :
  Forall walks cs ->
  forall l below B g bs sc,
    _sequences l = below ++ map Some (g :: bs) ->
    below_ok below ->
    scope_inv (heap l) B g bs sc ->
    exists l' bs_new,
      run (events_of_children cs) l = Ok l' /\
      scope_step l l' below B g bs bs_new sc (denote_children cs sc).
Proof.
  induction 1 as [|c cs Hc _ IH]; intros l below B g bs sc Hs Hb Hinv.
  - exists l, []. split; [done|]. by apply scope_step_refl.
  - destruct (Hc l below B g bs sc Hs Hb Hinv) as (l1 & bs1 & Hrun1 & Hst1).
    pose proof Hst1 as (Hs1 & _ & _ & Hinv1 & _).
    destruct (IH l1 below B g (bs ++ bs1) (denote c sc) Hs1 Hb Hinv1)
      as (l2 & bs2 & Hrun2 & Hst2).
    exists l2, (bs1 ++ bs2). split.
    + unfold events_of_children. simpl. rewrite run_app, Hrun1. exact Hrun2.
    + by eapply scope_step_trans.
Qed.

Lemma below_ok_marker below : below_ok (below ++ [GROUP_MARKER]).
Proof. right. by exists below. Qed.

Lemma walk_bracket (enter exit : Event) (close : Scope -> Expression) cs :
  (forall l, dispatch enter l = enterGroup l) ->
  (forall l h0 below B g bs sc g' bs' sc',
      _sequences l
      = (below ++ map Some (g :: bs)) ++ GROUP_MARKER :: map Some (g' :: bs') ->
      scope_inv h0 B g bs sc ->
      preserves [] h0 (heap l) ->
      length h0 <= length (heap l) ->
      length h0 <= g' ->
      scope_inv (heap l) (B ++ g :: bs) g' bs' sc' ->
      exists l',
        dispatch exit l = Ok l' /\
        _sequences l' = below ++ map Some (g :: bs) /\
        sentences l' = sentences l /\
        _sentence l' = _sentence l /\
        scope_inv (heap l') B g bs (add_item (close sc') sc) /\
        preserves (g' :: g :: bs) (heap l) (heap l') /\
        length (heap l) <= length (heap l') /\
        nseq (close sc') + length (heap l) <= scope_size sc' + length (heap l')) ->
  Forall walks cs ->
  forall l below B g bs sc,
    _sequences l = below ++ map Some (g :: bs) ->
    below_ok below ->
    scope_inv (heap l) B g bs sc ->
    exists l',
      run (enter :: events_of_children cs ++ [exit]) l = Ok l' /\
      scope_step l l' below B g bs [] sc
        (add_item (close (denote_children cs (Plain []))) sc).
Proof.
  intros Henter Hexit Hcs l below B g bs sc Hs Hb Hinv.
  destruct (enterGroup_scope l below B g bs sc Hs Hinv)
    as (l1 & Hrun1 & Hs1 & Hh1 & Hsen1 & Hcur1 & Hinv1).
  set (g' := length (heap l)) in *.
  assert (Hs1' : _sequences l1
                 = ((below ++ map Some (g :: bs)) ++ [GROUP_MARKER])
                     ++ map Some (g' :: [])).
  { rewrite Hs1. by rewrite <- !app_assoc. }
  destruct (walk_children cs Hcs l1 _ _ _ _ _ Hs1' (below_ok_marker _) Hinv1)
    as (l2 & bs' & Hrun2 & Hst2).
  destruct Hst2 as (Hs2 & Hsen2 & Hcur2 & Hinv2 & Hp2 & Hlen2 & Hfr2 & Hsz2).
  assert (Hp02 : preserves [] (heap l) (heap l2)).
  { eapply (preserves_trans _ [g']); [|done|].
    - rewrite Hh1. apply preserves_alloc.
    - intros a ->%list_elem_of_singleton. right. unfold g'. lia. }
  assert (Hlen02 : length (heap l) <= length (heap l2)).
  { rewrite Hh1, length_app in Hlen2. simpl in Hlen2. lia. }
  assert (Hs2' : _sequences l2
                 = (below ++ map Some (g :: bs))
                     ++ GROUP_MARKER :: map Some (g' :: bs')).
  { rewrite Hs2. by rewrite <- !app_assoc. }
  destruct (Hexit l2 (heap l) below B g bs sc g' bs' _ Hs2' Hinv Hp02 Hlen02
                  (Nat.le_refl _) Hinv2)
    as (l3 & Hrun3 & Hs3 & Hsen3 & Hcur3 & Hinv3 & Hp3 & Hlen3 & Hsz3).
  exists l3. split.
  { simpl. rewrite Henter, Hrun1. simpl. rewrite run_app, Hrun2. simpl.
    by rewrite Hrun3. }
  unfold scope_step. rewrite app_nil_r.
  split; [done|]. split; [congruence|]. split; [congruence|].
  split; [done|]. split.
  { eapply (preserves_trans _ (g' :: g :: bs)); [|done|].
    - eapply preserves_mono; [|done]. set_solver.
    - intros a [->|?]%elem_of_cons; [right; unfold g'; lia|by left]. }
  split; [lia|]. split; [constructor|].
  rewrite scope_size_add_item.
  rewrite Hh1, length_app in Hsz2. unfold scope_size in Hsz2 at 2.
  simpl in Hsz2. lia.
Qed.

Lemma walk_ctx c : walks c.
Proof.
  induction c as [t|n|n| |cs IH|cs IH] using Ctx_ind';
    intros l below B g bs sc Hs Hb Hinv.
  - destruct (leaf_scope l below B g bs sc (classify t) Hs Hinv)
      as (l' & Hrun & Hst).
    exists l', []. split; [|done]. simpl. unfold enterWord. by rewrite Hrun.
  - destruct (leaf_scope l below B g bs sc (RuleReference n) Hs Hinv)
      as (l' & Hrun & Hst).
    exists l', []. split; [|done]. simpl. unfold enterRule. by rewrite Hrun.
  - destruct (leaf_scope l below B g bs sc (ListReference n) Hs Hinv)
      as (l' & Hrun & Hst).
    exists l', []. split; [|done]. simpl. unfold enterList. by rewrite Hrun.
  - destruct (enterAlt_scope l below B g bs sc Hs Hb Hinv)
      as (l' & ng & Hrun & Hst).
    exists l', [ng]. split; [|done]. simpl. by rewrite Hrun.
  - destruct (walk_bracket EnterGroup ExitGroup close_group cs)
      with (l := l) (below := below) (B := B) (g := g) (bs := bs) (sc := sc)
      as (l' & Hrun & Hst); try done.
    + intros l0 h0 below0 B0 g0 bs0 sc0 g' bs' sc' Hs0 Hout Hp Hlen Hfr Hin.
      destruct (exitGroup_scope l0 h0 below0 B0 g0 bs0 sc0 g' bs' sc')
        as (l1 & Hr & H1 & H2 & H3 & H4 & H5 & H6); try done.
      exists l1. split; [done|]. do 4 (split; [done|]). split.
      { eapply preserves_mono; [|done]. set_solver. }
      split; [lia|]. unfold scope_size. lia.
    + exists l', []. split; [|done]. exact Hrun.
  - destruct (walk_bracket EnterOptional ExitOptional close_optional cs)
      with (l := l) (below := below) (B := B) (g := g) (bs := bs) (sc := sc)
      as (l' & Hrun & Hst); try done.
    + intros l0 h0 below0 B0 g0 bs0 sc0 g' bs' sc' Hs0 Hout Hp Hlen Hfr Hin.
      by apply (exitOptional_scope l0 h0 below0 B0 g0 bs0 sc0 g' bs' sc').
    + exists l', []. split; [|done]. exact Hrun.
Qed.

End Walk.

(** ** Sentences and documents *)

Section Sentences.

Lemma walks_all cs : Forall walks cs.
Proof. apply Forall_forall. intros c _. apply walk_ctx. Qed.

Lemma walk_sentence s l :
  exists l',
    run (events_of_sentence s) l = Ok l' /\
    sentences l' = sentences l ++ [length (heap l)] /\
    _sentence l' = None /\
    _sequences l' = [] /\
    repr (heap l') [] (Ref (length (heap l))) (denote_sentence s) /\
    preserves [] (heap l) (heap l') /\
    nseq (denote_sentence s) + length (heap l) <= length (heap l').
Proof.
  set (a := length (heap l)).
  set (l1 := {| heap := heap l ++ [mkSequence GROUP []];
                sentences := sentences l;
                _sentence := Some a; _sequences := [Some a] |}).
  assert (Hinv1 : scope_inv (heap l1) [] a [] (Plain [])).
  { split; [apply NoDup_singleton|]. split.
    - constructor; [|constructor]. simpl. rewrite length_app. simpl.
      unfold a. lia.
    - split; [done|]. exists []. split; [apply lookup_alloc|constructor]. }
  destruct (walk_children s (walks_all s) l1 [] [] a [] (Plain []))
    as (l2 & bs' & Hrun2 & Hst2); [done|by left|done|].
  destruct Hst2 as (Hs2 & Hsen2 & Hcur2 & Hinv2 & Hp2 & Hlen2 & Hfr2 & Hsz2).
  eexists. split.
  { unfold events_of_sentence. simpl. fold a. fold l1.
    rewrite run_app. fold (events_of_children s). rewrite Hrun2. simpl.
    unfold exitSentence. rewrite Hcur2. simpl. done. }
  simpl. split; [by rewrite Hsen2|]. do 2 (split; [done|]). split.
  { apply scope_close_group in Hinv2. exact Hinv2. }
  split.
  { eapply (preserves_trans _ [a]); [apply preserves_alloc|exact Hp2|].
    intros x ->%list_elem_of_singleton. right. unfold a. lia. }
  unfold denote_sentence. fold (scope_size (denote_children s (Plain []))).
  simpl in Hsz2. rewrite length_app in Hsz2. simpl in Hsz2.
  unfold a. lia.
Qed.

Lemma walk_document d l :
  exists l' new,
    walk d l = Ok l' /\
    sentences l' = sentences l ++ new /\
    Forall2 (fun a s => repr (heap l') [] (Ref a) (denote_sentence s) /\
                        nseq (denote_sentence s) <= length (heap l')) new d /\
    preserves [] (heap l) (heap l') /\
    length (heap l) <= length (heap l').
Proof.
  unfold walk. revert l. induction d as [|s d IH]; intros l.
  - exists l, []. split; [done|]. rewrite app_nil_r. split; [done|].
    split; [constructor|]. split; [apply preserves_refl|done].
  - destruct (walk_sentence s l)
      as (l1 & Hrun1 & Hsen1 & _ & _ & Hrepr1 & Hp1 & Hsz1).
    destruct (IH l1) as (l2 & new & Hrun2 & Hsen2 & Hnew & Hp2 & Hlen2).
    exists l2, (length (heap l) :: new). split.
    { change (events_of_document (s :: d))
        with (events_of_sentence s ++ events_of_document d).
      rewrite run_app, Hrun1. exact Hrun2. }
    split. { rewrite Hsen2, Hsen1. by rewrite <- app_assoc. }
    split.
    { constructor; [|done]. split; [|lia].
      eapply repr_preserves; [exact Hrepr1|done]. }
    split; [|lia].
    eapply (preserves_trans _ []); [done|done|set_solver].
Qed.

Lemma tree_at_repr h a e :
  repr h [] (Ref a) e -> nseq e <= length h -> tree_at h a = Some e.
Proof.
  intros Hr Hn. unfold tree_at. eapply repr_reify; [done|].
  pose proof (height_le_nseq e). lia.
Qed.

Lemma tree_at_mono h h' a e :
  tree_at h a = Some e ->
  preserves [] h h' ->
  length h <= length h' ->
  tree_at h' a = Some e.
Proof.
  unfold tree_at. intros Hr Hp Hlen. eapply reify_mono; [done|done|].
  intros b o. apply Hp. set_solver.
Qed.

Lemma sentence_trees_walk d l old :
  sentence_trees l = Some old ->
  exists l',
    walk d l = Ok l' /\
    sentence_trees l' = Some (old ++ map denote_sentence d).
Proof.
  intros Hold.
  destruct (walk_document d l) as (l' & new & Hrun & Hsen & Hnew & Hp & Hlen).
  exists l'. split; [done|].
  unfold sentence_trees in *. rewrite Hsen.
  apply mapM_Some. apply mapM_Some in Hold.
  apply Forall2_app.
  - eapply Forall2_impl; [done|]. intros a e Ha. simpl in Ha.
    by eapply tree_at_mono.
  - apply Forall2_fmap_r. eapply Forall2_impl; [done|].
    intros a s [Hr Hn]. by apply tree_at_repr.
Qed.

End Sentences.

(** ** Branches and occurrences *)

Section Branches.

Lemma denote_expr_of c sc :
  denote c sc = match expr_of c with
                | Some e => add_item e sc
                | None => add_alt sc
                end.
Proof. by destruct c. Qed.

Lemma denote_children_cons c cs sc :
  denote_children (c :: cs) sc = denote_children cs (denote c sc).
Proof. done. Qed.

Lemma join_last_snoc xs x b rest :
  join_last (xs ++ [x]) b rest = xs ++ (x ++ b) :: rest.
Proof.
  induction xs as [|y xs IH]; [done|].
  simpl. rewrite IH. by destruct xs.
Qed.

Lemma branches_snoc sc : exists xs x, branches sc = xs ++ [x].
Proof.
  destruct sc as [es|first mids cur]; simpl.
  - by exists [], es.
  - by exists (first :: mids), cur.
Qed.

Lemma branches_add_item e sc :
  branches (add_item e sc) = join_last (branches sc) [e] [].
Proof.
  destruct sc as [es|first mids cur]; [done|].
  change (branches (Alts first mids cur)) with ((first :: mids) ++ [cur]).
  by rewrite join_last_snoc.
Qed.

Lemma branches_add_alt sc : branches (add_alt sc) = branches sc ++ [[]].
Proof.
  destruct sc as [es|first mids cur]; simpl; [done|].
  by rewrite <- app_assoc.
Qed.

Lemma split_alts_cons c cs :
  c <> AltCtx ->
  exists b bs, split_alts cs = b :: bs /\ split_alts (c :: cs) = (c :: b) :: bs.
Proof.
  intros Hc. assert (exists b bs, split_alts cs = b :: bs) as (b & bs & Hs).
  { destruct cs as [|[] cs]; simpl; eauto; destruct (split_alts cs); eauto. }
  exists b, bs. split; [done|]. destruct c; simpl; by rewrite ?Hs.
Qed.

Lemma branches_denote_children cs sc :
  exists b rest,
    map items_of (split_alts cs) = b :: rest /\
    branches (denote_children cs sc) = join_last (branches sc) b rest.
Proof.
  revert sc. induction cs as [|c cs IH]; intros sc.
  - exists [], []. split; [done|]. simpl.
    destruct (branches_snoc sc) as (xs & x & ->).
    by rewrite join_last_snoc, app_nil_r.
  - destruct (IH (denote c sc)) as (b' & rest' & Hsplit & Hbr).
    rewrite denote_children_cons, Hbr, denote_expr_of.
    destruct (expr_of c) as [e|] eqn:He.
    + assert (Hc : c <> AltCtx) by (by intros ->).
      destruct (split_alts_cons c cs Hc) as (b0 & bs0 & Hs0 & ->).
      rewrite Hs0 in Hsplit. simpl in Hsplit. injection Hsplit as <- <-.
      exists (e :: items_of b0), (map items_of bs0). split.
      { simpl. unfold items_of at 1. simpl. by rewrite He. }
      rewrite branches_add_item.
      destruct (branches_snoc sc) as (xs & x & ->).
      rewrite !join_last_snoc. by rewrite <- app_assoc.
    + assert (c = AltCtx) as -> by (by destruct c).
      exists [], (b' :: rest'). split; [by simpl; rewrite Hsplit|].
      rewrite branches_add_alt.
      destruct (branches_snoc sc) as (xs & x & ->).
      rewrite !join_last_snoc. by rewrite app_nil_r, <- app_assoc.
Qed.

Lemma branches_of_children cs :
  branches (denote_children cs (Plain [])) = map items_of (split_alts cs).
Proof.
  destruct (branches_denote_children cs (Plain [])) as (b & rest & -> & ->).
  done.
Qed.

Lemma Forall2_map_Seq_GROUP brs :
  Forall2 whole_alternative brs (map (Seq GROUP) brs).
Proof. induction brs; constructor; [by left|done]. Qed.

Lemma complete_alternatives_items first mids cur tail :
  exists items',
    (wrap_first first ++ branches_of mids cur) ++ tail = items' ++ tail /\
    Forall2 whole_alternative (drop_empty_first (first :: mids ++ [cur])) items'.
Proof.
  eexists. split; [done|]. unfold branches_of.
  destruct first as [|e first]; simpl.
  - apply Forall2_map_Seq_GROUP.
  - constructor; [by left|apply Forall2_map_Seq_GROUP].
Qed.

Lemma complete_alternatives_group cs :
  complete_alternatives cs [] (close_group (denote_children cs (Plain []))).
Proof.
  intros items Hitems. rewrite <- branches_of_children.
  destruct (denote_children cs (Plain [])) as [es|first mids cur];
    simpl in *; [done|].
  injection Hitems as <-.
  destruct (complete_alternatives_items first mids cur []) as (items' & H1 & H2).
  exists items'. rewrite !app_nil_r in H1. by rewrite app_nil_r.
Qed.

Lemma complete_alternatives_optional cs :
  complete_alternatives cs [Leaf Word_empty]
    (close_optional (denote_children cs (Plain []))).
Proof.
  intros items Hitems. rewrite <- branches_of_children.
  destruct (denote_children cs (Plain [])) as [es|first mids cur];
    simpl in *; injection Hitems as <-.
  - eexists. split; [done|].
    destruct es as [|e [|e' es]]; simpl.
    + constructor.
    + constructor; [by right|constructor].
    + constructor; [by left|constructor].
  - apply complete_alternatives_items.
Qed.

End Branches.

Section Occurrences.

Lemma subexpr_trans e1 e2 e3 : subexpr e1 e2 -> subexpr e2 e3 -> subexpr e1 e3.
Proof.
  intros H12 H23. induction H23 as [|t es e' Hin _ IH]; [done|].
  by eapply subexpr_item.
Qed.

Lemma holds_add_item e e' sc : holds e sc -> holds e (add_item e' sc).
Proof.
  intros (b & x & Hb & Hx & Hsub).
  destruct sc as [es|first mids cur]; simpl in Hb.
  - apply list_elem_of_singleton in Hb as ->.
    exists (es ++ [e']), x. simpl. set_solver.
  - apply elem_of_cons in Hb as [->|Hb].
    { exists first, x. simpl. set_solver. }
    apply elem_of_app in Hb as [Hb|Hb].
    { exists b, x. simpl. set_solver. }
    apply list_elem_of_singleton in Hb as ->.
    exists (cur ++ [e']), x. simpl. set_solver.
Qed.

Lemma holds_add_item_new e e' sc : subexpr e e' -> holds e (add_item e' sc).
Proof.
  intros Hsub. destruct sc as [es|first mids cur].
  - exists (es ++ [e']), e'. simpl. set_solver.
  - exists (cur ++ [e']), e'. simpl. set_solver.
Qed.

Lemma holds_add_alt e sc : holds e sc -> holds e (add_alt sc).
Proof.
  intros (b & x & Hb & Hx & Hsub). exists b, x.
  rewrite branches_add_alt. set_solver.
Qed.

Lemma holds_denote e c sc : holds e sc -> holds e (denote c sc).
Proof.
  intros H. rewrite denote_expr_of.
  destruct (expr_of c); [by apply holds_add_item|by apply holds_add_alt].
Qed.

Lemma holds_denote_children e cs sc :
  holds e sc -> holds e (denote_children cs sc).
Proof.
  revert sc. induction cs as [|c cs IH]; intros sc H; [done|].
  rewrite denote_children_cons. by apply IH, holds_denote.
Qed.

Lemma holds_child e e' c cs sc :
  c ∈ cs -> expr_of c = Some e' -> subexpr e e' ->
  holds e (denote_children cs sc).
Proof.
  intros Hin He Hsub. revert sc.
  induction cs as [|c' cs IH]; intros sc; [by apply elem_of_nil in Hin|].
  rewrite denote_children_cons.
  apply elem_of_cons in Hin as [<-|Hin]; [|by apply IH].
  apply holds_denote_children. rewrite denote_expr_of, He.
  by apply holds_add_item_new.
Qed.

Lemma holds_alts_item e first mids cur :
  holds e (Alts first mids cur) ->
  exists item, item ∈ wrap_first first ++ branches_of mids cur /\ subexpr e item.
Proof.
  intros (b & x & Hb & Hx & Hsub). simpl in Hb.
  assert (Hin : subexpr e (Seq GROUP b)) by (by eapply subexpr_item).
  exists (Seq GROUP b). split; [|done].
  apply elem_of_cons in Hb as [->|Hb].
  - apply elem_of_app. left. destruct first; [by apply elem_of_nil in Hx|].
    simpl. set_solver.
  - apply elem_of_app. right. unfold branches_of.
    apply list_elem_of_fmap. by exists b.
Qed.

Lemma holds_close_group e sc : holds e sc -> subexpr e (close_group sc).
Proof.
  intros H. destruct sc as [es|first mids cur]; simpl.
  - destruct H as (b & x & Hb & Hx & Hsub). simpl in Hb.
    apply list_elem_of_singleton in Hb as ->. by eapply subexpr_item.
  - destruct (holds_alts_item _ _ _ _ H) as (item & Hin & Hsub).
    by eapply subexpr_item.
Qed.

Lemma holds_close_optional e sc : holds e sc -> subexpr e (close_optional sc).
Proof.
  intros H. destruct sc as [es|first mids cur]; simpl.
  - destruct H as (b & x & Hb & Hx & Hsub). simpl in Hb.
    apply list_elem_of_singleton in Hb as ->.
    destruct (1 <? length es).
    + eapply (subexpr_item _ _ _ (Seq GROUP es)); [set_solver|].
      by eapply subexpr_item.
    + eapply subexpr_item; [|done]. set_solver.
  - destruct (holds_alts_item _ _ _ _ H) as (item & Hin & Hsub).
    eapply subexpr_item; [|done]. set_solver.
Qed.

Lemma occurs_holds c cs e :
  occurs c cs -> expr_of c = Some e ->
  forall sc, holds e (denote_children cs sc).
Proof.
  intros Hocc He. induction Hocc as [cs Hin|cs cs' Hin _ IH|cs cs' Hin _ IH];
    intros sc.
  - eapply holds_child; [done|done|constructor].
  - eapply holds_child; [done|done|]. simpl.
    apply holds_close_group, IH.
  - eapply holds_child; [done|done|]. simpl.
    apply holds_close_optional, IH.
Qed.

Lemma occurs_subexpr c s e :
  occurs c s -> expr_of c = Some e -> subexpr e (denote_sentence s).
Proof.
  intros Hocc He. unfold denote_sentence.
  by eapply holds_close_group, occurs_holds.
Qed.

End Occurrences.

(** ** The shape of alternatives *)

Section Shape.

Lemma subexpr_Leaf_inv e x : subexpr e (Leaf x) -> e = Leaf x.
Proof. by inversion 1. Qed.

Lemma subexpr_Seq_inv e t es :
  subexpr e (Seq t es) ->
  e = Seq t es \/ exists e', e' ∈ es /\ subexpr e e'.
Proof. inversion 1; subst; eauto. Qed.

Lemma well_shaped_Leaf x : well_shaped (Leaf x).
Proof. intros items H. by apply subexpr_Leaf_inv in H. Qed.

Lemma well_shaped_group es :
  (forall x, x ∈ es -> well_shaped x) -> well_shaped (Seq GROUP es).
Proof.
  intros Hes items [H|(e' & Hin & Hsub)]%subexpr_Seq_inv; [done|].
  by eapply Hes.
Qed.

Lemma well_shaped_alternative es :
  alternative_shape es ->
  (forall x, x ∈ es -> well_shaped x) ->
  well_shaped (Seq ALTERNATIVE es).
Proof.
  intros Hshape Hes items [H|(e' & Hin & Hsub)]%subexpr_Seq_inv.
  - by injection H as ->.
  - by eapply Hes.
Qed.

Lemma scope_well_shaped_nil : scope_well_shaped (Plain []).
Proof.
  intros b x Hb Hx. simpl in Hb. apply list_elem_of_singleton in Hb as ->.
  by apply elem_of_nil in Hx.
Qed.

Lemma scope_well_shaped_add_item e sc :
  scope_well_shaped sc -> well_shaped e -> scope_well_shaped (add_item e sc).
Proof.
  intros Hsc He b x Hb Hx.
  destruct sc as [es|first mids cur]; simpl in Hb.
  - apply list_elem_of_singleton in Hb as ->.
    apply elem_of_app in Hx as [Hx|Hx].
    + eapply Hsc; [|done]. simpl. set_solver.
    + by apply list_elem_of_singleton in Hx as ->.
  - apply elem_of_cons in Hb as [->|Hb].
    { eapply Hsc; [|done]. simpl. set_solver. }
    apply elem_of_app in Hb as [Hb|Hb].
    { eapply Hsc; [|done]. simpl. set_solver. }
    apply list_elem_of_singleton in Hb as ->.
    apply elem_of_app in Hx as [Hx|Hx].
    + eapply Hsc; [|done]. simpl. set_solver.
    + by apply list_elem_of_singleton in Hx as ->.
Qed.

Lemma scope_well_shaped_add_alt sc :
  scope_well_shaped sc -> scope_well_shaped (add_alt sc).
Proof.
  intros Hsc b x Hb Hx. rewrite branches_add_alt in Hb.
  apply elem_of_app in Hb as [Hb|Hb]; [by eapply Hsc|].
  apply list_elem_of_singleton in Hb as ->. by apply elem_of_nil in Hx.
Qed.

Lemma Forall_is_group_branches first mids cur :
  Forall is_group (wrap_first first ++ branches_of mids cur).
Proof.
  apply Forall_app. split.
  - destruct first; constructor; [by eexists|constructor].
  - unfold branches_of. apply Forall_forall.
    intros e (b & -> & _)%list_elem_of_fmap. by eexists.
Qed.

Lemma well_shaped_branch_item first mids cur item :
  scope_well_shaped (Alts first mids cur) ->
  item ∈ wrap_first first ++ branches_of mids cur ->
  well_shaped item.
Proof.
  intros Hsc Hin. apply elem_of_app in Hin as [Hin|Hin].
  - destruct first as [|e first]; [by apply elem_of_nil in Hin|].
    simpl in Hin. apply list_elem_of_singleton in Hin as ->.
    apply well_shaped_group. intros x Hx. eapply Hsc; [|done].
    simpl. set_solver.
  - unfold branches_of in Hin.
    apply list_elem_of_fmap in Hin as (b & -> & Hb).
    apply well_shaped_group. intros x Hx. eapply Hsc; [|done].
    simpl. set_solver.
Qed.

Lemma well_shaped_close_group sc :
  scope_well_shaped sc -> well_shaped (close_group sc).
Proof.
  intros Hsc. destruct sc as [es|first mids cur]; simpl.
  - apply well_shaped_group. intros x Hx. eapply Hsc; [|done].
    simpl. set_solver.
  - apply well_shaped_alternative.
    + left. eexists _, []. rewrite app_nil_r. split; [done|].
      split; [apply Forall_is_group_branches|by left].
    + intros x Hx. by eapply well_shaped_branch_item.
Qed.

Lemma well_shaped_close_optional sc :
  scope_well_shaped sc -> well_shaped (close_optional sc).
Proof.
  intros Hsc. destruct sc as [es|first mids cur]; simpl.
  - assert (Hes : forall x, x ∈ es -> well_shaped x).
    { intros x Hx. eapply Hsc; [|done]. simpl. set_solver. }
    destruct es as [|e [|e' es]]; simpl.
    + apply well_shaped_alternative.
      * left. exists [], [Leaf Word_empty]. split; [done|].
        split; [constructor|by right].
      * intros x ->%list_elem_of_singleton. apply well_shaped_Leaf.
    + apply well_shaped_alternative; [right; by eexists|].
      intros x [->| ->%list_elem_of_singleton]%elem_of_cons.
      * apply Hes. set_solver.
      * apply well_shaped_Leaf.
    + apply well_shaped_alternative.
      * left. exists [Seq GROUP (e :: e' :: es)], [Leaf Word_empty].
        split; [done|]. split; [|by right].
        constructor; [by eexists|constructor].
      * intros x [->| ->%list_elem_of_singleton]%elem_of_cons.
        -- by apply well_shaped_group.
        -- apply well_shaped_Leaf.
  - apply well_shaped_alternative.
    + left. eexists _, [Leaf Word_empty]. split; [done|].
      split; [apply Forall_is_group_branches|by right].
    + intros x [Hx| ->%list_elem_of_singleton]%elem_of_app.
      * by eapply well_shaped_branch_item.
      * apply well_shaped_Leaf.
Qed.

Lemma scope_well_shaped_children cs sc :
  Forall (fun c => forall e, expr_of c = Some e -> well_shaped e) cs ->
  scope_well_shaped sc ->
  scope_well_shaped (denote_children cs sc).
Proof.
  intros Hcs. revert sc. induction Hcs as [|c cs Hc _ IH]; intros sc Hsc;
    [done|].
  rewrite denote_children_cons. apply IH. rewrite denote_expr_of.
  destruct (expr_of c) as [e|] eqn:He.
  - apply scope_well_shaped_add_item; [done|]. by apply Hc.
  - by apply scope_well_shaped_add_alt.
Qed.

Lemma well_shaped_expr_of c e : expr_of c = Some e -> well_shaped e.
Proof.
  revert e. induction c as [t|n|n| |cs IH|cs IH] using Ctx_ind';
    intros e He; simpl in He; try (injection He as <-); try done.
  - apply well_shaped_Leaf.
  - apply well_shaped_Leaf.
  - apply well_shaped_Leaf.
  - apply well_shaped_close_group, scope_well_shaped_children;
      [done|apply scope_well_shaped_nil].
  - apply well_shaped_close_optional, scope_well_shaped_children;
      [done|apply scope_well_shaped_nil].
Qed.

Lemma well_shaped_sentence s : well_shaped (denote_sentence s).
Proof.
  apply well_shaped_close_group, scope_well_shaped_children;
    [|apply scope_well_shaped_nil].
  apply Forall_forall. intros c _ e. apply well_shaped_expr_of.
Qed.

End Shape.

(** ** Text lemmas *)

Section TextLemmas.
Import Text Patterns.

Lemma list_ascii_of_string_append s1 s2 :
  list_ascii_of_string (String.append s1 s2)
  = list_ascii_of_string s1 ++ list_ascii_of_string s2.
Proof. induction s1 as [|c s1 IH]; simpl; [done|by rewrite IH]. Qed.

Lemma lstrip_all_space cs : forallb is_space cs = true -> lstrip cs = [].
Proof.
  induction cs as [|c cs IH]; simpl; [done|].
  intros [Hc Hcs]%andb_true_iff. rewrite Hc. by apply IH.
Qed.

Lemma strip_all_space s : blank s -> strip s = EmptyString.
Proof. intros H. unfold strip. by rewrite (lstrip_all_space _ H). Qed.

Lemma lstrip_not_space c cs : is_space c = false -> lstrip (c :: cs) = c :: cs.
Proof. intros H. simpl. by rewrite H. Qed.

Lemma blank_join lines :
  Forall blank lines -> blank (join (String newline EmptyString) lines).
Proof.
  unfold blank. induction 1 as [|x lines Hx _ IH]; [done|].
  destruct lines as [|y lines]; [done|].
  change (join _ (x :: y :: lines))
    with (String.append x (String.append (String newline EmptyString)
                                          (join (String newline EmptyString)
                                                (y :: lines)))).
  rewrite !list_ascii_of_string_append, !forallb_app, Hx, IH. done.
Qed.

Lemma blank_joined_text lines : Forall blank lines -> blank (joined_text lines).
Proof.
  intros H. unfold joined_text, blank.
  rewrite list_ascii_of_string_append, forallb_app.
  by rewrite (blank_join lines H).
Qed.

Lemma remove_escapes_chars_id cs :
  Forall (fun c => c <> backslash) cs -> remove_escapes_chars cs = cs.
Proof.
  induction 1 as [|c cs Hc _ IH]; [done|].
  destruct cs as [|c2 cs]; [done|].
  change (remove_escapes_chars (c :: c2 :: cs))
    with (if Ascii.eqb c backslash then c2 :: remove_escapes_chars cs
          else c :: remove_escapes_chars (c2 :: cs)).
  apply Ascii.eqb_neq in Hc. rewrite Hc. by rewrite IH.
Qed.

Lemma is_digit_not_backslash c : is_digit c = true -> c <> backslash.
Proof. by intros H ->. Qed.

Lemma is_sign_not_backslash c : is_sign c = true -> c <> backslash.
Proof. by intros H ->. Qed.

Lemma forallb_digit_not_backslash cs :
  forallb is_digit cs = true -> Forall (fun c => c <> backslash) cs.
Proof.
  intros H. apply Forall_forall. intros c Hin.
  apply is_digit_not_backslash.
  rewrite forallb_forall in H. apply H. by apply list_elem_of_In.
Qed.

Lemma NUMBER_PATTERN_no_backslash s n :
  NUMBER_PATTERN_match s = Some n ->
  Forall (fun c => c <> backslash) (list_ascii_of_string s).
Proof.
  unfold NUMBER_PATTERN_match.
  destruct (list_ascii_of_string s) as [|c rest]; [done|].
  destruct (is_sign c) eqn:Hsign.
  - destruct rest as [|c2 rest]; [done|].
    destruct (forallb is_digit (c2 :: rest)) eqn:Hd; [|done]. intros _.
    constructor; [by apply is_sign_not_backslash|].
    by apply forallb_digit_not_backslash.
  - destruct (forallb is_digit (c :: rest)) eqn:Hd; [|done]. intros _.
    by apply forallb_digit_not_backslash.
Qed.

Lemma chars_quoted s :
  list_ascii_of_string (quoted s) = dquote :: list_ascii_of_string s ++ [dquote].
Proof. unfold quoted. simpl. by rewrite list_ascii_of_string_append. Qed.

Lemma strip_quoted s : strip (quoted s) = quoted s.
Proof.
  unfold strip. rewrite chars_quoted.
  rewrite lstrip_not_space by done.
  assert (Hrev : rev (dquote :: list_ascii_of_string s ++ [dquote])
                 = dquote :: rev (list_ascii_of_string s) ++ [dquote]).
  { simpl. by rewrite rev_app_distr. }
  unfold rstrip. rewrite Hrev, lstrip_not_space by done.
  rewrite <- Hrev, rev_involutive, <- chars_quoted.
  apply string_of_list_ascii_of_string.
Qed.

Lemma remove_quotes_quoted s : remove_quotes (quoted s) = s.
Proof.
  unfold remove_quotes. rewrite chars_quoted.
  rewrite rev_app_distr. simpl. rewrite rev_involutive.
  by rewrite string_of_list_ascii_of_string.
Qed.

Lemma remove_escapes_quoted s :
  Forall (fun c => c <> backslash) (list_ascii_of_string s) ->
  remove_escapes (quoted s) = quoted s.
Proof.
  intros H. unfold remove_escapes. rewrite remove_escapes_chars_id.
  - by rewrite string_of_list_ascii_of_string.
  - rewrite chars_quoted.
    constructor; [done|]. apply Forall_app. split; [done|].
    constructor; [done|constructor].
Qed.

Lemma cleaned_quoted s n :
  NUMBER_PATTERN_match s = Some n -> cleaned (quoted s) = s.
Proof.
  intros H. unfold cleaned. rewrite strip_quoted.
  rewrite remove_escapes_quoted by (by eapply NUMBER_PATTERN_no_backslash).
  apply remove_quotes_quoted.
Qed.

End TextLemmas.

(** * The claims *)

(** ** Handlers and examples *)

Section HandlerClaims.

Lemma last_sequence_snoc l stk a :
  _sequences l = stk ++ [Some a] -> last_sequence l = Ok a.
Proof.
  intros Hs. unfold last_sequence. rewrite Hs, last_snoc. by destruct stk.
Qed.

(** C1.  On a separator whose enclosing scope is the object [o] at [scope]:
    the listener allocates a new empty [GROUP] at [ng], appends it to the
    scope's items and pushes it, without a marker, so that it is the current
    target; the scope is an [ALTERNATIVE] afterwards.  If the scope was a
    [GROUP] with items, they were moved before that into one new nested
    [GROUP] at [w], which is now the scope's first and only earlier item; if
    it was a [GROUP] without items, the new group is its only item; if it
    was an [ALTERNATIVE] already, its items are kept.  No other object of the
    store changes. *)
Theorem enterAlt_converts_scope (l : Listener) (scope : nat) (o : Sequence) :
  last_parent_sequence l = Ok scope ->
  heap l !! scope = Some o ->
  exists l' pre ng,
    enterAlt l = Ok l' /\
    heap l' !! scope = Some (mkSequence ALTERNATIVE (pre ++ [Ref ng])) /\
    heap l' !! ng = Some (mkSequence GROUP []) /\
    length (heap l) <= ng /\
    _sequences l' = _sequences l ++ [Some ng] /\
    last_sequence l' = Ok ng /\
    sentences l' = sentences l /\
    _sentence l' = _sentence l /\
    (forall a, a <> scope -> a < length (heap l) ->
               heap l' !! a = heap l !! a) /\
    match type o, items o with
    | ALTERNATIVE, its =>
        pre = its /\ length (heap l') = S (length (heap l))
    | GROUP, [] =>
        pre = [] /\ length (heap l') = S (length (heap l))
    | GROUP, its =>
        exists w,
          pre = [Ref w] /\ length (heap l) <= w /\ w <> ng /\
          heap l' !! w = Some (mkSequence GROUP its) /\
          length (heap l') = S (S (length (heap l)))
    end.
Proof.
  intros Hscope Ho.
  assert (Hlt : scope < length (heap l)) by (by eapply lookup_lt_Some).
  unfold enterAlt. rewrite Hscope. simpl. unfold load. rewrite Ho. simpl.
  destruct o as [[] its]; unfold group_to_alternative; simpl.
  - destruct its as [|i its]; unfold store, set_heap; simpl.
    + erewrite items_append_ok.
      2:{ simpl. apply lookup_app_l_Some. by apply list_lookup_insert_eq. }
      rewrite length_insert.
      eexists _, [], (length (heap l)). split; [done|]. simpl.
      split. { apply list_lookup_insert_eq. rewrite length_app, length_insert.
               simpl. lia. }
      split. { rewrite list_lookup_insert_ne by lia. rewrite <- (length_insert (heap l) scope (mkSequence ALTERNATIVE [])) at 1. apply lookup_alloc. }
      split; [done|]. split; [done|].
      split. { by eapply last_sequence_snoc. }
      do 2 (split; [done|]). split.
      { intros a Ha Halt. rewrite list_lookup_insert_ne by done.
        rewrite lookup_app_l by (rewrite length_insert; lia).
        by rewrite list_lookup_insert_ne. }
      split; [done|]. rewrite length_insert, length_app, length_insert.
      simpl. lia.
    + erewrite items_append_ok.
      2:{ simpl. apply lookup_app_l_Some. apply list_lookup_insert_eq.
          rewrite length_app. simpl. lia. }
      rewrite length_insert, length_app. simpl.
      eexists _, [Ref (length (heap l))], (length (heap l) + 1).
      split; [done|]. simpl.
      split. { apply list_lookup_insert_eq.
               rewrite length_app, length_insert, length_app. simpl. lia. }
      split. { rewrite list_lookup_insert_ne by lia.
               apply list_lookup_middle.
               rewrite length_insert, length_app. simpl. lia. }
      split; [lia|]. split; [done|].
      split. { by eapply last_sequence_snoc. }
      do 2 (split; [done|]). split.
      { intros a Ha Halt. rewrite list_lookup_insert_ne by done.
        rewrite lookup_app_l by (rewrite length_insert, length_app; simpl; lia).
        rewrite list_lookup_insert_ne by done.
        by rewrite lookup_app_l. }
      exists (length (heap l)). split; [done|]. split; [lia|]. split; [lia|].
      split.
      { rewrite list_lookup_insert_ne by lia.
        rewrite lookup_app_l by (rewrite length_insert, length_app; simpl; lia).
        rewrite list_lookup_insert_ne by lia. apply lookup_alloc. }
      rewrite length_insert, length_app, length_insert, length_app.
      simpl. lia.
  - erewrite items_append_ok.
    2:{ simpl. by apply lookup_app_l_Some. }
    eexists _, its, (length (heap l)). split; [done|]. simpl.
    split. { apply list_lookup_insert_eq. rewrite length_app. simpl. lia. }
    split. { rewrite list_lookup_insert_ne by lia. apply lookup_alloc. }
    split; [done|]. split; [done|].
    split. { by eapply last_sequence_snoc. }
    do 2 (split; [done|]). split.
    { intros a Ha Halt. rewrite list_lookup_insert_ne by done.
      by rewrite lookup_app_l. }
    split; [done|]. rewrite length_insert, length_app. simpl. lia.
Qed.

Lemma enterAlt_converts_scope_witness :
  last_parent_sequence listener_in_group = Ok 1 /\
  exists l' pre ng,
    enterAlt listener_in_group = Ok l' /\
    heap l' !! 1 = Some (mkSequence ALTERNATIVE (pre ++ [Ref ng])) /\
    heap l' !! ng = Some (mkSequence GROUP []) /\
    length (heap listener_in_group) <= ng /\
    _sequences l' = _sequences listener_in_group ++ [Some ng] /\
    last_sequence l' = Ok ng /\
    sentences l' = sentences listener_in_group /\
    _sentence l' = _sentence listener_in_group /\
    (forall a, a <> 1 -> a < length (heap listener_in_group) ->
               heap l' !! a = heap listener_in_group !! a) /\
    exists w,
      pre = [Ref w] /\ length (heap listener_in_group) <= w /\ w <> ng /\
      heap l' !! w = Some (mkSequence GROUP [Atomic (Word "a")]) /\
      length (heap l') = S (S (length (heap listener_in_group))).
Proof.
  split; [reflexivity|].
  apply (enterAlt_converts_scope listener_in_group 1
           (mkSequence GROUP [Atomic (Word "a")])); reflexivity.
Defined.



(** C2, as stated, fails: the first item of the [ALTERNATIVE] compiled from
    [(a | b c)] is not the bare word. *)
Lemma group_alternative_first_item_not_bare :
  compile ["(a | b c)"]
  <> Ok [Seq GROUP
           [Seq ALTERNATIVE
              [Leaf (Word "a");
               Seq GROUP [Leaf (Word "b"); Leaf (Word "c")]]]].
Proof. vm_compute. discriminate. Qed.

(** C2, amended.  The template [(a | b c)] is one sentence holding one group
    with a separator after its first word; it compiles to one sentence whose
    root is a [GROUP] with one item, an [ALTERNATIVE] of two items, each of
    them a nested [GROUP]: the first holds [Word a], the second [Word b] and
    [Word c]. *)
Theorem group_alternative_compiles :
  FrontEnd.document (joined_text ["(a | b c)"])
  = Some [[GroupCtx [WordCtx "a"; AltCtx; WordCtx "b"; WordCtx "c"]]] /\
  compile ["(a | b c)"]
  = Ok [Seq GROUP
          [Seq ALTERNATIVE
             [Seq GROUP [Leaf (Word "a")];
              Seq GROUP [Leaf (Word "b"); Leaf (Word "c")]]]].
Proof. split; vm_compute; reflexivity. Qed.

(** C8, as stated, fails: the second item of the root compiled from
    [turn on [the] light] is the word [on]. *)
Lemma optional_is_not_second_item :
  ~ exists items,
      compile ["turn on [the] light"] = Ok [Seq GROUP items] /\
      length items = 4 /\
      items !! 1 = Some (Seq ALTERNATIVE
                           [Leaf (Word "the"); Leaf (Word EmptyString)]).
Proof.
  intros (items & Hc & _ & Hi). vm_compute in Hc. injection Hc as <-.
  discriminate Hi.
Qed.

(** C8, amended.  The template [turn on [the] light] compiles to one
    sentence whose root is a [GROUP] of exactly 4 items; the third one
    (index 2) is an [ALTERNATIVE] whose items are exactly [Word the] and the
    empty word; the others are the three words in source order. *)
Theorem optional_compiles :
  FrontEnd.document (joined_text ["turn on [the] light"])
  = Some [[WordCtx "turn"; WordCtx "on"; OptionalCtx [WordCtx "the"];
           WordCtx "light"]] /\
  compile ["turn on [the] light"]
  = Ok [Seq GROUP
          [Leaf (Word "turn"); Leaf (Word "on");
           Seq ALTERNATIVE [Leaf (Word "the"); Leaf (Word EmptyString)];
           Leaf (Word "light")]].
Proof. split; vm_compute; reflexivity. Qed.

Lemma scan_parent_None rs p :
  scan_parent rs p = None <->
  p = None /\ (rs = [] \/ exists rs', rs = GROUP_MARKER :: rs').
Proof.
  revert p. induction rs as [|[a|] rs IH]; intros p; simpl.
  - naive_solver.
  - rewrite IH. split; [intros [[=] _]|intros [_ [[=]|[? [=]]]]].
  - split; [intros ->; naive_solver|by intros [-> _]].
Qed.

Lemma no_marker_map_Some (stk : list (option nat)) :
  GROUP_MARKER ∉ stk -> exists xs, stk = map Some xs.
Proof.
  induction stk as [|[a|] stk IH]; intros Hn.
  - by exists [].
  - destruct IH as [xs ->]; [set_solver|]. by exists (a :: xs).
  - exfalso. apply Hn. unfold GROUP_MARKER. set_solver.
Qed.

Lemma enterAlt_succeeds l s :
  last_parent_sequence l = Ok s ->
  s < length (heap l) ->
  is_ok (enterAlt l) = true.
Proof.
  intros Hs Hlt. unfold enterAlt. rewrite Hs. simpl.
  destruct (lookup_lt_is_Some_2 (heap l) s Hlt) as [o Ho].
  unfold load. rewrite Ho. simpl.
  set (l1 := group_to_alternative s o l).
  assert (Hlt1 : s < length (heap l1)).
  { unfold l1, group_to_alternative.
    destruct (type o); [|done]. destruct (items o); simpl.
    - by rewrite length_insert.
    - rewrite length_insert, length_app. lia. }
  destruct (lookup_lt_is_Some_2 (heap l1) s Hlt1) as [o1 Ho1].
  erewrite items_append_ok; [done|]. simpl. by apply lookup_app_l_Some.
Qed.

Lemma enterAlt_alternative l s o :
  last_parent_sequence l = Ok s ->
  heap l !! s = Some o ->
  exists l' pre ng,
    enterAlt l = Ok l' /\
    heap l' !! s = Some (mkSequence ALTERNATIVE (pre ++ [Ref ng])) /\
    heap l' !! ng = Some (mkSequence GROUP []) /\
    length (heap l) <= ng /\
    _sequences l' = _sequences l ++ [Some ng].
Proof.
  intros Hs Ho.
  assert (Hlt : s < length (heap l)) by (by eapply lookup_lt_Some).
  unfold enterAlt. rewrite Hs. simpl. unfold load. rewrite Ho. simpl.
  destruct o as [[] its]; unfold group_to_alternative; simpl.
  - destruct its as [|i its]; unfold store, set_heap; simpl.
    + erewrite items_append_ok.
      2:{ simpl. apply lookup_app_l_Some. by apply list_lookup_insert_eq. }
      rewrite length_insert.
      eexists _, [], (length (heap l)). split; [done|]. simpl.
      split. { apply list_lookup_insert_eq. rewrite length_app, length_insert.
               simpl. lia. }
      split; [|done].
      rewrite list_lookup_insert_ne by lia.
      rewrite <- (length_insert (heap l) s (mkSequence ALTERNATIVE [])) at 1.
      apply lookup_alloc.
    + erewrite items_append_ok.
      2:{ simpl. apply lookup_app_l_Some. apply list_lookup_insert_eq.
          rewrite length_app. simpl. lia. }
      rewrite length_insert, length_app. simpl.
      eexists _, [Ref (length (heap l))], (length (heap l) + 1).
      split; [done|]. simpl.
      split. { apply list_lookup_insert_eq.
               rewrite length_app, length_insert, length_app. simpl. lia. }
      split; [|split; [lia|done]].
      rewrite list_lookup_insert_ne by lia.
      apply list_lookup_middle.
      rewrite length_insert, length_app. simpl. lia.
  - erewrite items_append_ok.
    2:{ simpl. by apply lookup_app_l_Some. }
    eexists _, its, (length (heap l)). split; [done|]. simpl.
    split. { apply list_lookup_insert_eq. rewrite length_app. simpl. lia. }
    split; [|done].
    rewrite list_lookup_insert_ne by lia. apply lookup_alloc.
Qed.

Lemma denote_Alts c first mids cur :
  exists mids' cur', denote c (Alts first mids cur) = Alts first mids' cur'.
Proof. destruct c; simpl; eauto. Qed.

Lemma denote_children_Alts cs first mids cur :
  exists mids' cur',
    denote_children cs (Alts first mids cur) = Alts first mids' cur'.
Proof.
  revert mids cur. induction cs as [|c cs IH]; intros mids cur; [by eauto|].
  destruct (denote_Alts c first mids cur) as (m1 & c1 & H1).
  change (denote_children (c :: cs) (Alts first mids cur))
    with (denote_children cs (denote c (Alts first mids cur))).
  rewrite H1. apply IH.
Qed.

Lemma denote_sentence_separator (s : SentenceCtx) :
  AltCtx ∈ s -> exists items, denote_sentence s = Seq ALTERNATIVE items.
Proof.
  intros (cs1 & cs2 & ->)%list_elem_of_split.
  unfold denote_sentence, denote_children. rewrite fold_left_app. simpl.
  fold (denote_children cs1 (Plain [])).
  assert (exists first mids cur,
             add_alt (denote_children cs1 (Plain [])) = Alts first mids cur)
    as (first & mids & cur & ->).
  { destruct (denote_children cs1 (Plain [])); simpl; eauto. }
  destruct (denote_children_Alts cs2 first mids cur) as (m & c & H).
  unfold denote_children in H. rewrite H. simpl. eauto.
Qed.

(** C5, as stated, fails: a separator directly inside a sentence, with no
    marker on the stack, raises nothing; the lookup returns the sentence's
    root and the compilation ends with a tree. *)
Lemma separator_without_marker_builds_tree :
  (GROUP_MARKER ∉ _sequences listener_in_sentence) /\
  last_parent_sequence listener_in_sentence = Ok 0 /\
  exists l,
    run [EnterSentence; EnterWord "a"; EnterAlt; EnterWord "b"; ExitSentence]
        init = Ok l /\
    sentence_trees l
    = Some [Seq ALTERNATIVE
              [Seq GROUP [Leaf (Word "a")]; Seq GROUP [Leaf (Word "b")]]].
Proof.
  split; [|split].
  - intros Hin. apply elem_of_cons in Hin as [[=]|Hin].
    by apply elem_of_nil in Hin.
  - reflexivity.
  - eexists. split; vm_compute; reflexivity.
Qed.

(** C5, amended.  The enclosing-scope lookup raises exactly when the stack
    is empty or its top entry is a marker.  When the stack holds no marker
    at all, as for a separator outside any group or optional, it returns the
    bottom entry of the stack, the sentence's root, and the separator's
    handler returns and converts that root: afterwards the root is an
    [ALTERNATIVE] whose last item is a new empty [GROUP], which is pushed on
    the stack without a marker.  Every sentence with a separator among its
    own children then compiles, and the root of its tree is an
    [ALTERNATIVE]. *)
Theorem last_parent_sequence_without_marker (l : Listener) :
  ((is_ok (last_parent_sequence l) = false) <->
   (_sequences l = [] \/ last (_sequences l) = Some GROUP_MARKER)) /\
  (forall s rest,
      _sequences l = Some s :: rest ->
      GROUP_MARKER ∉ rest ->
      last_parent_sequence l = Ok s /\
      (s < length (heap l) -> is_ok (enterAlt l) = true) /\
      (forall o,
          heap l !! s = Some o ->
          exists l' pre ng,
            enterAlt l = Ok l' /\
            heap l' !! s = Some (mkSequence ALTERNATIVE (pre ++ [Ref ng])) /\
            heap l' !! ng = Some (mkSequence GROUP []) /\
            length (heap l) <= ng /\
            _sequences l' = _sequences l ++ [Some ng])) /\
  (forall sen : SentenceCtx,
      AltCtx ∈ sen ->
      exists l' items,
        walk [sen] init = Ok l' /\
        sentence_trees l' = Some [Seq ALTERNATIVE items]).
Proof.
  split; [|split].
  - unfold last_parent_sequence.
    destruct (_sequences l) as [|x stk] eqn:Hs; [naive_solver|].
    rewrite <- Hs. clear Hs.
    destruct (scan_parent (rev (_sequences l)) None) as [a|] eqn:Hscan;
      simpl.
    + split; [done|]. intros [Hnil|Hlast].
      * rewrite Hnil in Hscan. done.
      * apply last_Some in Hlast as [stk' Hstk]. rewrite Hstk in Hscan.
        rewrite rev_app_distr in Hscan. done.
    + split; [|done]. intros _.
      apply scan_parent_None in Hscan as [_ [Hnil|[rs' Hrs]]].
      * left. apply (f_equal (@rev _)) in Hnil.
        by rewrite rev_involutive in Hnil.
      * right. apply (f_equal (@rev _)) in Hrs.
        rewrite rev_involutive in Hrs. rewrite Hrs. simpl.
        by rewrite last_snoc.
  - intros s rest Hs Hn.
    destruct (no_marker_map_Some rest Hn) as [bs ->].
    assert (Hp : last_parent_sequence l = Ok s).
    { by apply (last_parent_sequence_scope l [] s bs); [|left]. }
    split; [done|]. split; [by apply enterAlt_succeeds|].
    intros o Ho. by apply (enterAlt_alternative l s o).
  - intros sen Hin.
    destruct (denote_sentence_separator sen Hin) as [items Hitems].
    destruct (sentence_trees_walk [sen] init [] eq_refl) as (l' & Hw & Ht).
    exists l', items. split; [done|]. simpl in Ht. by rewrite Hitems in Ht.
Qed.

Lemma last_parent_sequence_without_marker_witness :
  last_parent_sequence listener_in_sentence = Ok 0 /\
  is_ok (enterAlt listener_in_sentence) = true /\
  (exists l' pre ng,
      enterAlt listener_in_sentence = Ok l' /\
      heap l' !! 0 = Some (mkSequence ALTERNATIVE (pre ++ [Ref ng])) /\
      heap l' !! ng = Some (mkSequence GROUP []) /\
      length (heap listener_in_sentence) <= ng /\
      _sequences l' = _sequences listener_in_sentence ++ [Some ng]) /\
  (exists l' items,
      walk [[WordCtx "a"; AltCtx; WordCtx "b"]] init = Ok l' /\
      sentence_trees l' = Some [Seq ALTERNATIVE items]).
Proof.
  destruct (last_parent_sequence_without_marker listener_in_sentence)
    as (_ & H & Hsen).
  destruct (H 0 [] eq_refl) as (H1 & H2 & H3).
  - intros Hin. by apply elem_of_nil in Hin.
  - split; [exact H1|]. split; [apply H2; simpl; lia|]. split.
    + apply (H3 (mkSequence GROUP [Atomic (Word "a")])). reflexivity.
    + apply (Hsen [WordCtx "a"; AltCtx; WordCtx "b"]).
      apply elem_of_cons. right. apply elem_of_cons. by left.
Defined.

End HandlerClaims.

(** ** The classifier and blank input *)

Section ClassifierClaims.
Import Text Patterns.

(** C6.  [enterWord] classifies the whole token, after stripping white
    space, removing escapes and removing outer quotes, by the first pattern
    that matches, the integer pattern before the range pattern before the
    fallback to a word: the five tokens of the spec classify as it says; a
    token whose cleaned text matches the integer pattern is a [Number],
    whatever else it matches; one that does not but matches the range
    pattern is one [NumberRange], the step being 1 when the match has none;
    only a token matching neither is a [Word], of the cleaned text; and the
    handler appends that one item to the current target. *)
Theorem classification_order :
  classify "5" = Number 5 /\
  classify "1..10" = NumberRange 1 10 1 /\
  classify "1..10..2" = NumberRange 1 10 2 /\
  classify "hello" = Word "hello" /\
  classify (quoted "a b") = Word "a b" /\
  (forall raw n,
      NUMBER_PATTERN_match (cleaned raw) = Some n -> classify raw = Number n) /\
  (forall raw lo hi step,
      NUMBER_PATTERN_match (cleaned raw) = None ->
      NUMBER_RANGE_PATTERN_match (cleaned raw) = Some (lo, hi, step) ->
      classify raw = NumberRange lo hi (default 1%Z step)) /\
  (forall raw,
      NUMBER_PATTERN_match (cleaned raw) = None ->
      NUMBER_RANGE_PATTERN_match (cleaned raw) = None ->
      classify raw = Word (cleaned raw)) /\
  (forall raw l target,
      last_sequence l = Ok target ->
      enterWord raw l = items_append target (Atomic (classify raw)) l).
Proof.
  do 5 (split; [vm_compute; reflexivity|]).
  split; [|split; [|split]].
  - intros raw n H. unfold classify. fold (cleaned raw). by rewrite H.
  - intros raw lo hi step H1 H2. unfold classify. fold (cleaned raw).
    rewrite H1, H2. by destruct step.
  - intros raw H1 H2. unfold classify. fold (cleaned raw). by rewrite H1, H2.
  - intros raw l target Ht. unfold enterWord. by rewrite Ht.
Qed.

Lemma classification_order_witness :
  classify "12" = Number 12 /\
  classify "3..7" = NumberRange 3 7 1 /\
  classify "light" = Word "light".
Proof.
  destruct classification_order as (_ & _ & _ & _ & _ & Hn & Hr & Hw & _).
  split; [|split].
  - apply (Hn "12" 12%Z). reflexivity.
  - apply (Hr "3..7" 3%Z 7%Z None); reflexivity.
  - apply (Hw "light"); reflexivity.
Defined.

(** C10.  A token whose text, once stripped, unescaped and unquoted, matches
    the integer pattern is classified as a [Number]; in particular an
    integer between double quotes is: the quotes are removed before the
    patterns are tried, so that quoting a numeric token does not make it a
    [Word]. *)
Theorem quoted_integer_is_number :
  (forall raw n,
      NUMBER_PATTERN_match (cleaned raw) = Some n -> classify raw = Number n) /\
  (forall s n,
      NUMBER_PATTERN_match s = Some n -> classify (quoted s) = Number n) /\
  classify (quoted "5") = Number 5.
Proof.
  assert (H : forall raw n,
             NUMBER_PATTERN_match (cleaned raw) = Some n ->
             classify raw = Number n).
  { intros raw n H. unfold classify. fold (cleaned raw). by rewrite H. }
  split; [exact H|]. split.
  - intros s n Hs. apply H. by rewrite (cleaned_quoted s n Hs).
  - vm_compute. reflexivity.
Qed.

Lemma quoted_integer_is_number_witness :
  classify (quoted "-42") = Number (-42).
Proof.
  destruct quoted_integer_is_number as (_ & H & _).
  apply (H "-42" (-42)%Z). reflexivity.
Defined.

(** C7.  The lines [a] and [b] compile to exactly two sentences, the one
    for [a] first; and when every line is blank, which includes the empty
    list of lines, the walk is skipped: the listener is left as it was and
    the result of a compilation is the empty list. *)
Theorem lines_compile_in_order :
  FrontEnd.document (joined_text ["a"; "b"])
  = Some [[WordCtx "a"]; [WordCtx "b"]] /\
  compile ["a"; "b"]
  = Ok [Seq GROUP [Leaf (Word "a")]; Seq GROUP [Leaf (Word "b")]] /\
  (forall lines,
      Forall blank lines ->
      (forall l, parse_sentences lines l = Ok l) /\ compile lines = Ok []).
Proof.
  do 2 (split; [vm_compute; reflexivity|]).
  intros lines Hblank.
  assert (H : forall l, parse_sentences lines l = Ok l).
  { intros l. unfold parse_sentences.
    by rewrite (strip_all_space _ (blank_joined_text lines Hblank)). }
  split; [exact H|]. unfold compile. by rewrite H.
Qed.

Lemma lines_compile_in_order_witness :
  compile [" "; EmptyString; "  "] = Ok [] /\ compile [] = Ok [].
Proof.
  destruct lines_compile_in_order as (_ & _ & H). split.
  - apply (H [" "; EmptyString; "  "]). repeat constructor.
  - apply (H []). constructor.
Defined.

End ClassifierClaims.

(** ** Successive calls *)

Section Calls.

Lemma sentence_trees_init : sentence_trees init = Some [].
Proof. done. Qed.

Lemma walk_trees_deterministic d l l' old :
  sentence_trees l = Some old ->
  walk d l = Ok l' ->
  sentence_trees l' = Some (old ++ map denote_sentence d).
Proof.
  intros Hold Hw. destruct (sentence_trees_walk d l old Hold) as (l2 & H2 & Ht).
  rewrite Hw in H2. by injection H2 as <-.
Qed.

Lemma parse_sentences_trees lines l l' old :
  sentence_trees l = Some old ->
  parse_sentences lines l = Ok l' ->
  exists new,
    sentence_trees l' = Some (old ++ new) /\
    forall k oldk,
      sentence_trees k = Some oldk ->
      exists k', parse_sentences lines k = Ok k' /\
                 sentence_trees k' = Some (oldk ++ new).
Proof.
  intros Hold. unfold parse_sentences.
  destruct (Text.is_empty (Text.strip (joined_text lines))).
  - intros [= <-]. exists []. rewrite app_nil_r. split; [done|].
    intros k oldk Hk. exists k. by rewrite app_nil_r.
  - destruct (FrontEnd.document (joined_text lines)) as [d|]; [|done].
    intros Hw. exists (map denote_sentence d).
    split; [by eapply walk_trees_deterministic|].
    intros k oldk Hk. by apply sentence_trees_walk.
Qed.

(** C9, as stated, fails: after a second call on the same listener the
    result holds the sentence of the first call too, so it is not the result
    of the second input alone. *)
Lemma second_call_keeps_first_sentences :
  ~ forall lines1 lines2 l1 l2 ts,
      parse_sentences lines1 init = Ok l1 ->
      parse_sentences lines2 l1 = Ok l2 ->
      compile lines2 = Ok ts ->
      sentence_trees l2 = Some ts.
Proof.
  intros H.
  assert (exists l1 l2,
             parse_sentences ["a"] init = Ok l1 /\
             parse_sentences ["b"] l1 = Ok l2 /\
             sentence_trees l2
             = Some [Seq GROUP [Leaf (Word "a")]; Seq GROUP [Leaf (Word "b")]] /\
             compile ["b"] = Ok [Seq GROUP [Leaf (Word "b")]])
    as (l1 & l2 & H1 & H2 & Ht & Hc).
  { do 2 eexists. split; [vm_compute; reflexivity|].
    split; [vm_compute; reflexivity|]. split; vm_compute; reflexivity. }
  specialize (H _ _ _ _ _ H1 H2 Hc). rewrite Ht in H. discriminate H.
Qed.

(** C9, amended.  A listener keeps its list of sentences from one call of
    [parse_sentences] to the next: when a first call on a new listener has
    succeeded and the second input compiles on a listener of its own, the
    second call on the used listener succeeds too, and its result is the
    result of the first call followed by what the second input compiles to
    on a listener of its own.  What a call adds depends on its input only. *)
Theorem calls_accumulate_sentences
    (lines1 lines2 : list string) (l1 : Listener) (ts2 : list Expression) :
  parse_sentences lines1 init = Ok l1 ->
  compile lines2 = Ok ts2 ->
  exists l2 ts1,
    parse_sentences lines2 l1 = Ok l2 /\
    sentence_trees l1 = Some ts1 /\
    sentence_trees l2 = Some (ts1 ++ ts2).
Proof.
  intros H1 H2.
  destruct (parse_sentences_trees lines1 init l1 [] sentence_trees_init H1)
    as (ts1 & Ht1 & _).
  unfold compile in H2.
  destruct (parse_sentences lines2 init) as [k|] eqn:Hk; [|done].
  simpl in H2.
  destruct (parse_sentences_trees lines2 init k [] sentence_trees_init Hk)
    as (new & Hnew & Hany).
  rewrite Hnew in H2. injection H2 as <-.
  destruct (Hany l1 ts1 Ht1) as (l2 & Hl2 & Ht2).
  by exists l2, ts1.
Qed.

Lemma calls_accumulate_sentences_witness :
  exists l1 l2 ts1,
    parse_sentences ["a"] init = Ok l1 /\
    parse_sentences ["b c"] l1 = Ok l2 /\
    sentence_trees l1 = Some ts1 /\
    sentence_trees l2
    = Some (ts1 ++ [Seq GROUP [Leaf (Word "b"); Leaf (Word "c")]]).
Proof.
  exists listener_after_a.
  destruct (calls_accumulate_sentences ["a"] ["b c"] listener_after_a
              [Seq GROUP [Leaf (Word "b"); Leaf (Word "c")]])
    as (l2 & ts1 & H2 & H1 & Ht).
  - vm_compute. reflexivity.
  - vm_compute. reflexivity.
  - exists l2, ts1. split; [vm_compute; reflexivity|]. by repeat split.
Defined.

End Calls.

(** ** Optionals and alternatives in every tree *)

Section Spans.

Lemma Forall2_map_same {A C} (f : A -> C) (P : A -> C -> Prop) l :
  (forall x, x ∈ l -> P x (f x)) -> Forall2 P l (map f l).
Proof.
  induction l as [|x l IH]; intros H; simpl; constructor.
  - apply H. set_solver.
  - apply IH. intros y Hy. apply H. set_solver.
Qed.

Lemma walk_init_trees d :
  exists l',
    walk d init = Ok l' /\ sentence_trees l' = Some (map denote_sentence d).
Proof.
  destruct (sentence_trees_walk d init [] sentence_trees_init) as (l' & H & Ht).
  by exists l'.
Qed.

(** C3.  For every parse tree, the walk succeeds, and for every optional
    span anywhere in a sentence, the item the span compiles to is an
    [ALTERNATIVE] whose last item is the empty word, and it is a node of
    that sentence's tree. *)
Theorem optional_ends_with_empty_word (d : DocumentCtx) :
  exists l' ts,
    walk d init = Ok l' /\
    sentence_trees l' = Some ts /\
    Forall2
      (fun s t =>
         forall cs,
           occurs (OptionalCtx cs) s ->
           exists xs,
             expr_of (OptionalCtx cs)
             = Some (Seq ALTERNATIVE (xs ++ [Leaf (Word EmptyString)])) /\
             subexpr (Seq ALTERNATIVE (xs ++ [Leaf (Word EmptyString)])) t)
      d ts.
Proof.
  destruct (walk_init_trees d) as (l' & Hw & Ht).
  exists l', (map denote_sentence d). do 2 (split; [done|]).
  apply Forall2_map_same. intros s _ cs Hocc.
  assert (exists xs, expr_of (OptionalCtx cs)
                     = Some (Seq ALTERNATIVE (xs ++ [Leaf (Word EmptyString)])))
    as [xs Hxs].
  { simpl. destruct (denote_children cs (Plain [])); simpl; by eexists. }
  exists xs. split; [done|]. by eapply occurs_subexpr.
Qed.

Lemma optional_ends_with_empty_word_witness :
  exists l' ts,
    walk [[WordCtx "turn"; OptionalCtx [WordCtx "the"]; WordCtx "light"]] init
    = Ok l' /\
    sentence_trees l' = Some ts /\
    Forall2
      (fun s t =>
         forall cs,
           occurs (OptionalCtx cs) s ->
           exists xs,
             expr_of (OptionalCtx cs)
             = Some (Seq ALTERNATIVE (xs ++ [Leaf (Word EmptyString)])) /\
             subexpr (Seq ALTERNATIVE (xs ++ [Leaf (Word EmptyString)])) t)
      [[WordCtx "turn"; OptionalCtx [WordCtx "the"]; WordCtx "light"]] ts.
Proof.
  exact (optional_ends_with_empty_word
           [[WordCtx "turn"; OptionalCtx [WordCtx "the"]; WordCtx "light"]]).
Defined.

(** C4.  For every parse tree, the walk succeeds, and in every sentence's
    tree: every [ALTERNATIVE] has as items nested groups, one per branch,
    then the empty word if it is an optional, or else the one element of an
    optional and the empty word; the root, every group and every optional
    that is an [ALTERNATIVE] has exactly one item per branch of its children
    (an empty first branch leaving none), in order, each the whole branch:
    the branch wrapped in one nested [GROUP], or the branch's only element;
    so the elements of a branch of more than one element are always inside
    one nested [GROUP] item. *)
Theorem alternatives_hold_whole_branches (d : DocumentCtx) :
  exists l' ts,
    walk d init = Ok l' /\
    sentence_trees l' = Some ts /\
    Forall2
      (fun s t =>
         well_shaped t /\
         complete_alternatives s [] t /\
         (forall cs,
             occurs (GroupCtx cs) s ->
             exists e,
               expr_of (GroupCtx cs) = Some e /\ subexpr e t /\
               complete_alternatives cs [] e) /\
         (forall cs,
             occurs (OptionalCtx cs) s ->
             exists e,
               expr_of (OptionalCtx cs) = Some e /\ subexpr e t /\
               complete_alternatives cs [Leaf (Word EmptyString)] e))
      d ts /\
    (forall b item,
        whole_alternative b item -> 1 < length b -> item = Seq GROUP b).
Proof.
  destruct (walk_init_trees d) as (l' & Hw & Ht).
  exists l', (map denote_sentence d). do 2 (split; [done|]). split.
  - apply Forall2_map_same. intros s _.
    split; [apply well_shaped_sentence|].
    split; [apply complete_alternatives_group|]. split.
    + intros cs Hocc. eexists. split; [done|].
      split; [by eapply occurs_subexpr|apply complete_alternatives_group].
    + intros cs Hocc. eexists. split; [done|].
      split; [by eapply occurs_subexpr|apply complete_alternatives_optional].
  - intros b item [->| ->] Hlen; [done|]. simpl in Hlen. lia.
Qed.

Lemma alternatives_hold_whole_branches_witness :
  exists l' ts,
    walk [[GroupCtx [WordCtx "a"; AltCtx; WordCtx "b"; WordCtx "c"]]] init
    = Ok l' /\
    sentence_trees l' = Some ts.
Proof.
  destruct (alternatives_hold_whole_branches
              [[GroupCtx [WordCtx "a"; AltCtx; WordCtx "b"; WordCtx "c"]]])
    as (l' & ts & Hw & Ht & _).
  by exists l', ts.
Defined.

End Spans.

(** * Further properties of the listener *)

(** ** Popping a scope *)

Section PopGroup.

(** What the loop of [_pop_group] returns: it stops at the first marker,
    having gone through sequences only, and hands back the last of them. *)
Lemma pop_until_marker_inv rs p item rs' :
  pop_until_marker rs p = Ok (item, rs') ->
  exists ys rs'',
    rs = map Some ys ++ GROUP_MARKER :: rs'' /\
    rs' = GROUP_MARKER :: rs'' /\
    item = last (p :: map Some ys) ≫= id.
Proof.
  revert p. induction rs as [|[a|] rs IH]; intros p H; simpl in H.
  - done.
  - destruct (IH _ H) as (ys & rs'' & -> & -> & ->).
    exists (a :: ys), rs''. split; [done|]. split; [done|].
    simpl. by rewrite !last_cons.
  - injection H as <- <-. by exists [], rs.
Qed.

Lemma pop_until_marker_no_marker ys p :
  pop_until_marker (map Some ys) p = Raise IndexError.
Proof. revert p. induction ys as [|y ys IH]; intros p; simpl; [done|apply IH]. Qed.

Lemma last_cons_map_Some (a : nat) ys :
  last (Some a :: map Some ys) ≫= id = Some (default a (last ys)).
Proof.
  revert a. induction ys as [|y ys IH]; intros a; [done|].
  change (map Some (y :: ys)) with (Some y :: map Some ys).
  rewrite last_cons. rewrite (last_cons y ys).
  destruct (last (Some y :: map Some ys)) as [x|] eqn:Hl.
  - specialize (IH y). rewrite Hl in IH. simpl in *. rewrite IH.
    by destruct (last ys).
  - by apply last_None in Hl.
Qed.

Lemma pop_group_inv l a l' :
  _pop_group l = Ok (a, l') ->
  exists below bs,
    l' = set_sequences below l /\
    (_sequences l = below ++ GROUP_MARKER :: map Some (a :: bs) \/
     _sequences l
     = below ++ GROUP_MARKER :: map Some (a :: bs) ++ [GROUP_MARKER]).
Proof.
  unfold _pop_group.
  destruct (length (_sequences l) <=? 1) eqn:Hlen; [done|].
  destruct (rev (_sequences l)) as [|top rs] eqn:Hrev; [done|].
  destruct (pop_until_marker rs top) as [[item rs']|e] eqn:Hpop; [|done].
  simpl. destruct item as [a'|]; [|done].
  destruct (pop_until_marker_inv _ _ _ _ Hpop) as (ys & rs'' & -> & -> & Hitem).
  intros [= <- <-].
  assert (Hstk : _sequences l
                 = rev rs'' ++ GROUP_MARKER :: map Some (rev ys) ++ [top]).
  { rewrite <- (rev_involutive (_sequences l)), Hrev. simpl.
    rewrite rev_app_distr. simpl. rewrite <- map_rev.
    by rewrite <- !app_assoc. }
  exists (rev rs'').
  destruct ys as [|y ys].
  - simpl in Hitem. destruct top as [t|]; [|done]. injection Hitem as ->.
    exists []. split; [done|]. left. by rewrite Hstk.
  - assert (Ha : a' = default y (last ys)).
    { change (top :: map Some (y :: ys))
        with (top :: Some y :: map Some ys) in Hitem.
      rewrite last_cons_cons in Hitem.
      rewrite last_cons_map_Some in Hitem. by injection Hitem. }
    assert (exists bs, rev (y :: ys) = a' :: bs) as [bs Hbs].
    { destruct (last ys) as [z|] eqn:Hl; simpl in Ha; subst a'.
      - apply last_Some in Hl as [ys' ->].
        exists (rev ys' ++ [y]). simpl. by rewrite rev_app_distr.
      - apply last_None in Hl as ->. by exists []. }
    rewrite Hbs in Hstk.
    destruct top as [t|].
    + exists (bs ++ [t]). split; [done|]. left. rewrite Hstk.
      simpl. by rewrite map_app.
    + exists bs. split; [done|]. by right.
Qed.

Lemma pop_group_marker_on_top l below a bs :
  _sequences l = below ++ GROUP_MARKER :: map Some (a :: bs) ++ [GROUP_MARKER] ->
  _pop_group l = Ok (a, set_sequences below l).
Proof.
  intros Hs. unfold _pop_group. rewrite Hs.
  assert ((length (below ++ GROUP_MARKER :: map Some (a :: bs) ++ [GROUP_MARKER])
           <=? 1) = false) as ->.
  { apply Nat.leb_gt. rewrite length_app. simpl. lia. }
  assert (rev (below ++ GROUP_MARKER :: map Some (a :: bs) ++ [GROUP_MARKER])
          = GROUP_MARKER :: map Some (rev bs) ++ Some a :: GROUP_MARKER
              :: rev below) as ->.
  { rewrite rev_app_distr. simpl. rewrite rev_app_distr. simpl.
    rewrite <- map_rev. by rewrite <- !app_assoc. }
  unfold GROUP_MARKER.
  destruct (rev bs) as [|b rbs]; simpl.
  - by rewrite rev_involutive.
  - rewrite pop_until_marker_Somes. simpl. by rewrite rev_involutive.
Qed.

End PopGroup.

(** ** The stack after each handler *)

Section StackEffects.

Lemma items_append_inv a it l l' :
  items_append a it l = Ok l' ->
  _sequences l' = _sequences l /\ sentences l' = sentences l /\
  _sentence l' = _sentence l /\ length (heap l') = length (heap l).
Proof.
  unfold items_append, load. destruct (heap l !! a); [|done]. simpl.
  intros [= <-]. simpl. by rewrite length_insert.
Qed.

Lemma items_append_valid a it l :
  a < length (heap l) -> is_ok (items_append a it l) = true.
Proof.
  intros [o Ho]%lookup_lt_is_Some_2. by rewrite (items_append_ok _ _ _ _ Ho).
Qed.

Lemma last_sequence_inv l t :
  last_sequence l = Ok t -> last (_sequences l) = Some (Some t).
Proof.
  unfold last_sequence. destruct (_sequences l) as [|x stk]; [done|].
  destruct (last (x :: stk)) as [[a|]|]; [|done..]. by intros [= ->].
Qed.

Lemma last_sequence_raise l e :
  last_sequence l = Raise e ->
  (_sequences l = [] /\ e = AssertionError "No target sequence") \/
  (last (_sequences l) = Some GROUP_MARKER /\
   e = AssertionError "Invalid target sequence").
Proof.
  unfold last_sequence. destruct (_sequences l) as [|x stk] eqn:Hs.
  { intros [= <-]. by left. }
  destruct (last (x :: stk)) as [[a|]|] eqn:Hl; [done| |].
  - intros [= <-]. by right.
  - by apply last_None in Hl.
Qed.

Lemma last_parent_sequence_elem l a :
  last_parent_sequence l = Ok a -> Some a ∈ _sequences l.
Proof.
  unfold last_parent_sequence. destruct (_sequences l) as [|x stk] eqn:Hs;
    [done|]. rewrite <- Hs. clear Hs.
  assert (H : forall rs p b,
             scan_parent rs p = Some b -> p = Some b \/ Some b ∈ rs).
  { induction rs as [|[c|] rs IH]; intros p b Hb; simpl in Hb; [by left| |by left].
    destruct (IH _ _ Hb) as [[= ->]|Hin]; right; set_solver. }
  destruct (scan_parent (rev (_sequences l)) None) as [b|] eqn:Hscan; [|done].
  intros [= ->]. destruct (H _ _ _ Hscan) as [?|Hin]; [done|].
  apply list_elem_of_In. apply list_elem_of_In in Hin. by apply in_rev.
Qed.

Lemma last_parent_sequence_raise l e :
  last_parent_sequence l = Raise e ->
  (_sequences l = [] /\ e = AssertionError "No target sequence") \/
  (last (_sequences l) = Some GROUP_MARKER /\
   e = AssertionError "No parent sequence").
Proof.
  unfold last_parent_sequence. destruct (_sequences l) as [|x stk] eqn:Hs.
  { intros [= <-]. by left. }
  rewrite <- Hs.
  destruct (scan_parent (rev (_sequences l)) None) as [b|] eqn:Hscan; [done|].
  intros [= <-]. right. split; [|done].
  apply scan_parent_None in Hscan as [_ [Hnil|[rs' Hrs]]].
  - apply (f_equal (@rev _)) in Hnil. rewrite rev_involutive in Hnil.
    by rewrite Hnil in Hs.
  - apply (f_equal (@rev _)) in Hrs. rewrite rev_involutive in Hrs.
    rewrite Hrs. simpl. by rewrite last_snoc.
Qed.

Lemma pop_group_raise l e :
  _pop_group l = Raise e ->
  e = AssertionError "Bad sequence stack" \/
  e = IndexError \/
  (last (_sequences l) = Some GROUP_MARKER /\
   e = AssertionError "Invalid last sequence").
Proof.
  unfold _pop_group.
  destruct (length (_sequences l) <=? 1); [intros [= <-]; by left|].
  destruct (rev (_sequences l)) as [|top rs] eqn:Hrev;
    [intros [= <-]; by right; left|].
  destruct (pop_until_marker rs top) as [[item rs']|e'] eqn:Hpop; simpl.
  - destruct (pop_until_marker_inv _ _ _ _ Hpop) as (ys & rs'' & -> & -> & Hitem).
    destruct item as [a|]; [done|]. intros [= <-]. right. right.
    split; [|done].
    destruct top as [t|].
    { by rewrite last_cons_map_Some in Hitem. }
    apply (f_equal (@rev _)) in Hrev. rewrite rev_involutive in Hrev.
    rewrite Hrev. simpl. by rewrite last_snoc.
  - intros [= <-]. right. left.
    clear Hrev. revert top Hpop.
    induction rs as [|[a|] rs IH]; intros top Hpop; simpl in Hpop.
    + by injection Hpop.
    + by eapply IH.
    + done.
Qed.

Lemma optional_to_alternative_inv a o l :
  _sequences (optional_to_alternative a o l) = _sequences l /\
  sentences (optional_to_alternative a o l) = sentences l /\
  _sentence (optional_to_alternative a o l) = _sentence l /\
  length (heap l) <= length (heap (optional_to_alternative a o l)).
Proof.
  unfold optional_to_alternative. destruct (type o); [|done].
  destruct (1 <? length (items o)); simpl.
  - rewrite length_insert, length_app. simpl. repeat split; lia.
  - by rewrite length_insert.
Qed.

Lemma group_to_alternative_inv a o l :
  _sequences (group_to_alternative a o l) = _sequences l /\
  sentences (group_to_alternative a o l) = sentences l /\
  _sentence (group_to_alternative a o l) = _sentence l /\
  length (heap l) <= length (heap (group_to_alternative a o l)).
Proof.
  unfold group_to_alternative. destruct (type o); [|done].
  destruct (items o); simpl.
  - by rewrite length_insert.
  - rewrite length_insert, length_app. simpl. repeat split; lia.
Qed.

(** The stack and the size of the store after a handler has returned. *)
Lemma dispatch_stack ev l l' :
  dispatch ev l = Ok l' ->
  length (heap l) <= length (heap l') /\
  match ev with
  | EnterSentence =>
      _sequences l' = [Some (length (heap l))] /\
      length (heap l) < length (heap l')
  | ExitSentence => _sequences l' = []
  | EnterGroup | EnterOptional =>
      _sequences l' = _sequences l ++ [GROUP_MARKER; Some (length (heap l))] /\
      length (heap l) < length (heap l')
  | ExitGroup | ExitOptional =>
      exists popped t,
        _sequences l = _sequences l' ++ GROUP_MARKER :: popped /\
        last (_sequences l') = Some (Some t)
  | EnterAlt =>
      exists ng,
        _sequences l' = _sequences l ++ [Some ng] /\ ng < length (heap l')
  | EnterRule _ | EnterList _ | EnterWord _ =>
      exists t,
        _sequences l' = _sequences l /\ last (_sequences l) = Some (Some t)
  end.
Proof.
  assert (Hleaf : forall it,
             (let* target := last_sequence l in items_append target it l)
             = Ok l' ->
             length (heap l) <= length (heap l') /\
             exists t, _sequences l' = _sequences l /\
                       last (_sequences l) = Some (Some t)).
  { intros it H. destruct (last_sequence l) as [t|] eqn:Ht; [|done].
    simpl in H. apply items_append_inv in H as (Hs & _ & _ & Hlen).
    split; [lia|]. exists t. split; [done|]. by apply last_sequence_inv. }
  destruct ev; simpl.
  - unfold enterSentence. simpl. intros [= <-]. simpl.
    rewrite length_app. simpl. repeat split; lia.
  - unfold exitSentence. destruct (_sentence l); [|done].
    by intros [= <-].
  - unfold enterGroup. simpl. intros [= <-]. simpl.
    rewrite length_app, <- app_assoc. simpl. repeat split; lia.
  - unfold exitGroup.
    destruct (_pop_group l) as [[g l1]|] eqn:Hpop; [|done]. simpl.
    destruct (last_sequence l1) as [t|] eqn:Ht; [|done]. simpl.
    intros (Hs & _ & _ & Hlen)%items_append_inv.
    destruct (pop_group_inv _ _ _ Hpop) as (below & bs & -> & Hstk).
    simpl in *. split; [lia|]. rewrite Hs.
    apply last_sequence_inv in Ht. simpl in Ht.
    destruct Hstk as [Hstk|Hstk]; eexists _, t; split; done.
  - unfold enterOptional. simpl. intros [= <-]. simpl.
    rewrite length_app, <- app_assoc. simpl. repeat split; lia.
  - unfold exitOptional.
    destruct (_pop_group l) as [[g l1]|] eqn:Hpop; [|done]. simpl.
    destruct (load g l1) as [o|] eqn:Ho; [|done]. simpl.
    destruct (items_append g (Atomic Word_empty)
                (optional_to_alternative g o l1)) as [l3|] eqn:H3; [|done].
    simpl.
    destruct (last_sequence l3) as [t|] eqn:Ht; [|done]. simpl.
    intros (Hs & _ & _ & Hlen)%items_append_inv.
    apply items_append_inv in H3 as (Hs3 & _ & _ & Hlen3).
    destruct (optional_to_alternative_inv g o l1) as (Hs2 & _ & _ & Hlen2).
    destruct (pop_group_inv _ _ _ Hpop) as (below & bs & -> & Hstk).
    simpl in *. split; [lia|]. rewrite Hs.
    apply last_sequence_inv in Ht. rewrite Hs3, Hs2 in *.
    destruct Hstk as [Hstk|Hstk]; eexists _, t; split; done.
  - unfold enterAlt.
    destruct (last_parent_sequence l) as [s|] eqn:Hp; [|done]. simpl.
    destruct (load s l) as [o|] eqn:Ho; [|done]. simpl.
    destruct (group_to_alternative_inv s o l) as (Hs1 & _ & _ & Hlen1).
    set (l1 := group_to_alternative s o l) in *.
    destruct (items_append s _ _) as [l3|] eqn:H3; [|done]. simpl.
    intros [= <-]. simpl.
    apply items_append_inv in H3 as (Hs3 & _ & _ & Hlen3). simpl in *.
    rewrite length_app in Hlen3. simpl in Hlen3.
    split; [lia|]. exists (length (heap l1)). rewrite Hs3, Hs1.
    split; [done|lia].
  - by apply Hleaf.
  - by apply Hleaf.
  - by apply Hleaf.
Qed.

End StackEffects.

(** ** Stacks reached from a new listener *)

Section StackOk.

Lemma stack_ok_init : stack_ok init.
Proof. split; [intros a Hin; by apply elem_of_nil in Hin|done]. Qed.

Lemma stack_ok_top l : stack_ok l -> last (_sequences l) <> Some GROUP_MARKER.
Proof.
  intros [_ Hm] Hl. rewrite last_lookup in Hl.
  destruct (Hm _ Hl) as [a Ha]. apply lookup_lt_Some in Ha.
  destruct (_sequences l); simpl in *; lia.
Qed.

Lemma markers_snoc (stk : list (option nat)) a :
  (forall i, stk !! i = Some GROUP_MARKER -> exists b, stk !! S i = Some (Some b)) ->
  forall i, (stk ++ [Some a]) !! i = Some GROUP_MARKER ->
            exists b, (stk ++ [Some a]) !! S i = Some (Some b).
Proof.
  intros H i Hi. destruct (decide (i < length stk)) as [Hlt|Hge].
  - rewrite lookup_app_l in Hi by done. destruct (H i Hi) as [b Hb].
    exists b. by apply lookup_app_l_Some.
  - rewrite lookup_app_r in Hi by lia.
    destruct (i - length stk) as [|n]; [done|by destruct n].
Qed.

Lemma markers_scope (stk : list (option nat)) a :
  (forall i, stk !! i = Some GROUP_MARKER -> exists b, stk !! S i = Some (Some b)) ->
  forall i, (stk ++ [GROUP_MARKER; Some a]) !! i = Some GROUP_MARKER ->
            exists b, (stk ++ [GROUP_MARKER; Some a]) !! S i = Some (Some b).
Proof.
  intros H i Hi. destruct (decide (i < length stk)) as [Hlt|Hge].
  - rewrite lookup_app_l in Hi by done. destruct (H i Hi) as [b Hb].
    exists b. by apply lookup_app_l_Some.
  - rewrite lookup_app_r in Hi by lia.
    destruct (i - length stk) as [|n] eqn:Hn.
    + exists a. rewrite lookup_app_r by lia.
      replace (S i - length stk) with 1 by lia. done.
    + destruct n as [|n]; [done|]. by destruct n.
Qed.

Lemma markers_prefix (below rest : list (option nat)) :
  (forall i, (below ++ GROUP_MARKER :: rest) !! i = Some GROUP_MARKER ->
             exists b, (below ++ GROUP_MARKER :: rest) !! S i = Some (Some b)) ->
  forall i, below !! i = Some GROUP_MARKER ->
            exists b, below !! S i = Some (Some b).
Proof.
  intros H i Hi. pose proof (lookup_lt_Some _ _ _ Hi) as Hlt.
  destruct (H i) as [b Hb]; [by apply lookup_app_l_Some|].
  exists b. destruct (decide (S i < length below)) as [Hlt'|Hge].
  - by rewrite lookup_app_l in Hb.
  - rewrite lookup_app_r in Hb by lia.
    replace (S i - length below) with 0 in Hb by lia. done.
Qed.

Lemma stack_ok_step ev l l' :
  stack_ok l -> dispatch ev l = Ok l' -> stack_ok l'.
Proof.
  intros [Hv Hm] Hd. destruct (dispatch_stack _ _ _ Hd) as [Hlen Hst].
  assert (Hv' : forall a, Some a ∈ _sequences l -> a < length (heap l')).
  { intros a Ha. specialize (Hv a Ha). lia. }
  unfold stack_ok. destruct ev.
  - destruct Hst as [-> Hlt]. split.
    + intros a [[= ->]|Hin]%elem_of_cons; [done|by apply elem_of_nil in Hin].
    + by intros [|[|i]].
  - rewrite Hst. split; [intros a Hin; by apply elem_of_nil in Hin|done].
  - destruct Hst as [-> Hlt]. split.
    + intros a [Hin|Hin]%elem_of_app; [by apply Hv'|].
      apply elem_of_cons in Hin as [[=]|Hin].
      apply list_elem_of_singleton in Hin as [= ->]. done.
    + by apply markers_scope.
  - destruct Hst as (popped & t & Hs & _). split.
    + intros a Ha. apply Hv'. rewrite Hs. set_solver.
    + rewrite Hs in Hm. by eapply markers_prefix.
  - destruct Hst as [-> Hlt]. split.
    + intros a [Hin|Hin]%elem_of_app; [by apply Hv'|].
      apply elem_of_cons in Hin as [[=]|Hin].
      apply list_elem_of_singleton in Hin as [= ->]. done.
    + by apply markers_scope.
  - destruct Hst as (popped & t & Hs & _). split.
    + intros a Ha. apply Hv'. rewrite Hs. set_solver.
    + rewrite Hs in Hm. by eapply markers_prefix.
  - destruct Hst as (ng & -> & Hng). split.
    + intros a [Hin|Hin]%elem_of_app; [by apply Hv'|].
      apply list_elem_of_singleton in Hin as [= ->]. done.
    + by apply markers_snoc.
  - destruct Hst as (t & -> & _). by split.
  - destruct Hst as (t & -> & _). by split.
  - destruct Hst as (t & -> & _). by split.
Qed.

Lemma stack_ok_run evs l l' : stack_ok l -> run evs l = Ok l' -> stack_ok l'.
Proof.
  revert l. induction evs as [|ev evs IH]; intros l Hok; simpl.
  - by intros [= <-].
  - destruct (dispatch ev l) as [l1|] eqn:Hd; [|done]. simpl.
    apply IH. by eapply stack_ok_step.
Qed.

Lemma leaf_raise l it e :
  stack_ok l ->
  (let* target := last_sequence l in items_append target it l) = Raise e ->
  e = AssertionError "No target sequence".
Proof.
  intros Hok. destruct (last_sequence l) as [t|e'] eqn:Ht; simpl.
  - intros H. apply last_sequence_inv in Ht.
    assert (Hin : Some t ∈ _sequences l).
    { apply last_Some in Ht as [stk ->]. set_solver. }
    destruct Hok as [Hv _].
    pose proof (items_append_valid t it l (Hv t Hin)) as Hok'.
    by rewrite H in Hok'.
  - intros [= <-]. apply last_sequence_raise in Ht as [[_ ->]|[Hl _]]; [done|].
    by apply stack_ok_top in Hok.
Qed.

Lemma stack_ok_set_below l below popped :
  stack_ok l ->
  _sequences l = below ++ GROUP_MARKER :: popped ->
  forall l1, _sequences l1 = below -> length (heap l) <= length (heap l1) ->
             stack_ok l1.
Proof.
  intros [Hv Hm] Hs l1 Hs1 Hlen. split.
  - intros a Ha. rewrite Hs1 in Ha.
    assert (a < length (heap l)); [|lia]. apply Hv. rewrite Hs. set_solver.
  - rewrite Hs1. rewrite Hs in Hm. by eapply markers_prefix.
Qed.

Lemma dispatch_raise ev l e :
  stack_ok l -> dispatch ev l = Raise e -> reachable_error e.
Proof.
  intros Hok. pose proof Hok as [Hv Hm].
  unfold reachable_error. destruct ev; simpl.
  - done.
  - unfold exitSentence. destruct (_sentence l); [done|].
    intros [= <-]. auto.
  - done.
  - unfold exitGroup.
    destruct (_pop_group l) as [[g l1]|e'] eqn:Hpop; simpl.
    + destruct (pop_group_inv _ _ _ Hpop) as (below & bs & -> & Hstk).
      intros H. left.
      apply (leaf_raise (set_sequences below l) (Ref g) e); [|done].
      destruct Hstk as [Hstk|Hstk];
        eapply (stack_ok_set_below l below); done.
    + intros [= <-].
      apply pop_group_raise in Hpop as [->|[->|[Hl _]]]; auto.
      by apply stack_ok_top in Hok.
  - done.
  - unfold exitOptional.
    destruct (_pop_group l) as [[g l1]|e'] eqn:Hpop; simpl.
    + destruct (pop_group_inv _ _ _ Hpop) as (below & bs & -> & Hstk).
      assert (Hg : g < length (heap l)).
      { apply Hv. destruct Hstk as [-> | ->]; set_solver. }
      destruct (lookup_lt_is_Some_2 _ _ Hg) as [o Ho].
      unfold load at 1. simpl. rewrite Ho. simpl.
      destruct (optional_to_alternative_inv g o (set_sequences below l))
        as (Hs2 & _ & _ & Hlen2).
      set (l2 := optional_to_alternative g o (set_sequences below l)) in *.
      simpl in Hlen2.
      destruct (items_append g (Atomic Word_empty) l2) as [l3|e3] eqn:H3.
      2:{ pose proof (items_append_valid g (Atomic Word_empty) l2) as Hv3.
          rewrite H3 in Hv3. simpl in Hv3. discriminate Hv3. lia. }
      simpl. intros H. left.
      apply items_append_inv in H3 as (Hs3 & _ & _ & Hlen3).
      apply (leaf_raise l3 (Ref g) e); [|done].
      destruct Hstk as [Hstk|Hstk];
        eapply (stack_ok_set_below l below); try done;
        try (by rewrite Hs3, Hs2); lia.
    + intros [= <-].
      apply pop_group_raise in Hpop as [->|[->|[Hl _]]]; auto.
      by apply stack_ok_top in Hok.
  - unfold enterAlt.
    destruct (last_parent_sequence l) as [s|e'] eqn:Hp; simpl.
    + assert (Hs : s < length (heap l)).
      { by apply Hv, last_parent_sequence_elem. }
      destruct (lookup_lt_is_Some_2 _ _ Hs) as [o Ho].
      unfold load. rewrite Ho. simpl.
      destruct (group_to_alternative_inv s o l) as (_ & _ & _ & Hlen1).
      set (l1 := group_to_alternative s o l) in *.
      destruct (items_append s _ _) as [l3|e3] eqn:H3; [done|].
      match type of H3 with
      | items_append s ?it ?l2 = _ =>
          pose proof (items_append_valid s it l2) as Hv3
      end.
      rewrite H3 in Hv3. simpl in Hv3. rewrite length_app in Hv3.
      discriminate Hv3. lia.
    + intros [= <-].
      apply last_parent_sequence_raise in Hp as [[_ ->]|[Hl _]]; auto.
      by apply stack_ok_top in Hok.
  - unfold enterRule. intros H. left. by eapply leaf_raise.
  - unfold enterList. intros H. left. by eapply leaf_raise.
  - unfold enterWord. intros H. left. by eapply leaf_raise.
Qed.

Lemma run_raise evs l e :
  stack_ok l -> run evs l = Raise e -> reachable_error e.
Proof.
  revert l. induction evs as [|ev evs IH]; intros l Hok; simpl; [done|].
  destruct (dispatch ev l) as [l1|e'] eqn:Hd; simpl.
  - apply IH. by eapply stack_ok_step.
  - intros [= <-]. by eapply dispatch_raise.
Qed.

End StackOk.

(** ** The stack discipline and the exceptions *)

Section StackProperties.

(** X1.  [_pop_group] returns exactly when the stack holds a marker with at
    least one sequence above it: it removes the last such marker and all
    that is above it, which may include one marker on top, and returns the
    sequence right above the removed marker, the head of the innermost
    scope.  Its last assertion, on the marker, never fails. *)
Theorem pop_group_returns_scope_head (l l' : Listener) (a : nat) :
  (_pop_group l = Ok (a, l') <->
   exists below bs,
     l' = set_sequences below l /\
     (_sequences l = below ++ GROUP_MARKER :: map Some (a :: bs) \/
      _sequences l
      = below ++ GROUP_MARKER :: map Some (a :: bs) ++ [GROUP_MARKER])) /\
  _pop_group l <> Raise (AssertionError "Missing group marker").
Proof.
  split.
  - split; [apply pop_group_inv|].
    intros (below & bs & -> & [Hs|Hs]).
    + exact (pop_group_scope l below a bs Hs).
    + exact (pop_group_marker_on_top l below a bs Hs).
  - intros H. apply pop_group_raise in H as [[=]|[[=]|[_ [=]]]].
Qed.

Lemma pop_group_returns_scope_head_witness :
  _pop_group listener_in_group
  = Ok (1, set_sequences [Some 0] listener_in_group).
Proof.
  apply (pop_group_returns_scope_head listener_in_group).
  exists [Some 0], []. split; [reflexivity|]. left. reflexivity.
Defined.

(** X2.  Closing a group or an optional when none is open, that is with a
    stack of sequences without a marker, raises: the assertion "Bad
    sequence stack" when the stack has one entry, and an [IndexError], from
    reading the top of the emptied stack, when separators have left more
    entries on it. *)
Theorem close_without_open_group (l : Listener) (s : nat) (bs : list nat) :
  _sequences l = map Some (s :: bs) ->
  let e := match bs with
           | [] => AssertionError "Bad sequence stack"
           | _ => IndexError
           end in
  exitGroup l = Raise e /\ exitOptional l = Raise e.
Proof.
  intros Hs.
  assert (H : _pop_group l
              = Raise match bs with
                      | [] => AssertionError "Bad sequence stack"
                      | _ => IndexError
                      end).
  { unfold _pop_group. rewrite Hs. destruct bs as [|b bs]; [done|].
    assert ((length (map Some (s :: b :: bs)) <=? 1) = false) as ->.
    { apply Nat.leb_gt. simpl. lia. }
    rewrite <- map_rev.
    destruct (rev (s :: b :: bs)) as [|t ts] eqn:Hrev.
    { apply (f_equal (@length _)) in Hrev. rewrite length_rev in Hrev.
      done. }
    simpl. by rewrite pop_until_marker_no_marker. }
  simpl. unfold exitGroup, exitOptional. by rewrite H.
Qed.

Lemma close_without_open_group_witness :
  exitGroup listener_in_sentence = Raise (AssertionError "Bad sequence stack") /\
  exitOptional listener_in_sentence
  = Raise (AssertionError "Bad sequence stack").
Proof.
  apply (close_without_open_group listener_in_sentence 0 []). reflexivity.
Defined.

(** X3.  Whatever the state of the listener, after a handler has returned
    the top of the stack is never a marker; and the stack is empty exactly
    after [exitSentence].  The same holds after any non-empty run of
    handlers that returns. *)
Theorem marker_never_on_top (ev : Event) (evs : list Event) (l l' : Listener) :
  (dispatch ev l = Ok l' ->
   last (_sequences l') <> Some GROUP_MARKER /\
   (_sequences l' = [] <-> ev = ExitSentence)) /\
  (run (evs ++ [ev]) l = Ok l' ->
   last (_sequences l') <> Some GROUP_MARKER).
Proof.
  assert (H : forall k k',
             dispatch ev k = Ok k' ->
             last (_sequences k') <> Some GROUP_MARKER /\
             (_sequences k' = [] <-> ev = ExitSentence)).
  { intros k k' Hd. destruct (dispatch_stack _ _ _ Hd) as [_ Hst].
    destruct ev.
    - destruct Hst as [-> _]. by split.
    - rewrite Hst. by split.
    - destruct Hst as [-> _]. rewrite last_app. split; [done|].
      split; [|done]. by intros [? ?]%app_eq_nil.
    - destruct Hst as (popped & t & _ & Ht). rewrite Ht. split; [done|].
      split; [|done]. intros Hnil. by rewrite Hnil in Ht.
    - destruct Hst as [-> _]. rewrite last_app. split; [done|].
      split; [|done]. by intros [? ?]%app_eq_nil.
    - destruct Hst as (popped & t & _ & Ht). rewrite Ht. split; [done|].
      split; [|done]. intros Hnil. by rewrite Hnil in Ht.
    - destruct Hst as (ng & -> & _). rewrite last_snoc. split; [done|].
      split; [|done]. by intros [? ?]%app_eq_nil.
    - destruct Hst as (t & -> & Ht). rewrite Ht. split; [done|].
      split; [|done]. intros Hnil. by rewrite Hnil in Ht.
    - destruct Hst as (t & -> & Ht). rewrite Ht. split; [done|].
      split; [|done]. intros Hnil. by rewrite Hnil in Ht.
    - destruct Hst as (t & -> & Ht). rewrite Ht. split; [done|].
      split; [|done]. intros Hnil. by rewrite Hnil in Ht.  }
  split; [apply H|].
  rewrite run_app. destruct (run evs l) as [l1|]; [|done]. simpl.
  destruct (dispatch ev l1) as [l2|] eqn:Hd; [|done]. simpl.
  intros [= <-]. by apply (H l1 l2).
Qed.

Lemma marker_never_on_top_witness :
  exists l',
    run ([EnterSentence; EnterGroup; EnterWord "a"] ++ [ExitGroup]) init = Ok l' /\
    last (_sequences l') <> Some GROUP_MARKER.
Proof.
  eexists. split; [vm_compute; reflexivity|].
  eapply (marker_never_on_top ExitGroup [EnterSentence; EnterGroup; EnterWord "a"]
            init).
  vm_compute. reflexivity.
Defined.

(** X4.  On a listener that starts new, whatever events it is sent, a run of
    handlers can only end with one of four exceptions: the assertions "No
    target sequence", "Bad sequence stack" and "No sentence started", and
    the [IndexError] of [_pop_group]; each of the four does occur.  The
    other assertions of the listener ("Invalid target sequence", "No parent
    sequence", "Invalid last sequence", "Missing group marker") never fail,
    and no reference is ever followed to an object that does not exist. *)
Theorem errors_of_a_new_listener :
  (forall evs e, run evs init = Raise e -> reachable_error e) /\
  run [EnterWord "a"] init = Raise (AssertionError "No target sequence") /\
  run [EnterSentence; ExitGroup] init
  = Raise (AssertionError "Bad sequence stack") /\
  run [ExitSentence] init = Raise (AssertionError "No sentence started") /\
  run [EnterSentence; EnterAlt; ExitGroup] init = Raise IndexError.
Proof.
  split; [|by vm_compute].
  intros evs e. apply run_raise, stack_ok_init.
Qed.

Lemma errors_of_a_new_listener_witness :
  reachable_error (AssertionError "No target sequence").
Proof.
  destruct errors_of_a_new_listener as [H _].
  apply (H [EnterSentence; EnterGroup; ExitGroup; ExitSentence; EnterAlt]).
  vm_compute. reflexivity.
Defined.

End StackProperties.

(** ** Walks from any listener *)

Section Compiling.

Lemma events_of_document_app d1 d2 :
  events_of_document (d1 ++ d2) = events_of_document d1 ++ events_of_document d2.
Proof. unfold events_of_document. apply flat_map_app. Qed.

Lemma events_of_document_one s :
  events_of_document [s] = events_of_sentence s.
Proof.
  unfold events_of_document, events_of_sentence. simpl. by rewrite app_nil_r.
Qed.

Lemma walk_reset d l l' :
  d <> [] -> walk d l = Ok l' -> _sentence l' = None /\ _sequences l' = [].
Proof.
  intros Hd. destruct (exists_last Hd) as (d' & s & ->).
  unfold walk. rewrite events_of_document_app, run_app.
  destruct (walk_document d' l) as (l1 & _ & H1 & _). unfold walk in H1.
  rewrite H1. cbn [bind]. rewrite events_of_document_one.
  destruct (walk_sentence s l1) as (l2 & H2 & _ & Hcur & Hstk & _).
  rewrite H2. by intros [= <-].
Qed.

Lemma sentence_compiles_denote s : sentence_compiles_to s (denote_sentence s).
Proof.
  destruct (sentence_trees_walk [s] init [] sentence_trees_init)
    as (l & Hw & Ht).
  by exists l.
Qed.

Lemma sentence_compiles_to_inv s t :
  sentence_compiles_to s t -> t = denote_sentence s.
Proof.
  intros (l & Hw & Ht).
  rewrite (walk_trees_deterministic [s] init l [] sentence_trees_init Hw) in Ht.
  simpl in Ht. by injection Ht.
Qed.

Lemma compiles_to_expr_of c t : compiles_to c t <-> expr_of c = Some t.
Proof.
  split.
  - intros (l & Hw & Ht).
    assert (Hs : sentence_compiles_to [c] (Seq GROUP [t])) by (by exists l).
    apply sentence_compiles_to_inv in Hs. unfold denote_sentence in Hs.
    simpl in Hs. rewrite denote_expr_of in Hs.
    destruct (expr_of c) as [e|]; simpl in Hs; [|done]. by injection Hs as ->.
  - intros He. destruct (sentence_compiles_denote [c]) as (l & Hw & Ht).
    exists l. split; [done|]. rewrite Ht. unfold denote_sentence. simpl.
    by rewrite denote_expr_of, He.
Qed.

Lemma denote_children_app cs1 cs2 sc :
  denote_children (cs1 ++ cs2) sc
  = denote_children cs2 (denote_children cs1 sc).
Proof. unfold denote_children. apply fold_left_app. Qed.

Lemma denote_children_items cs items sc :
  Forall2 compiles_to cs items ->
  denote_children cs sc = fold_left (fun s e => add_item e s) items sc.
Proof.
  intros H. revert sc. induction H as [|c e cs items Hc _ IH]; intros sc;
    [done|].
  rewrite denote_children_cons, denote_expr_of.
  apply compiles_to_expr_of in Hc. rewrite Hc. simpl. apply IH.
Qed.

Lemma add_items_Plain items es :
  fold_left (fun s e => add_item e s) items (Plain es) = Plain (es ++ items).
Proof.
  revert es. induction items as [|e items IH]; intros es; simpl.
  - by rewrite app_nil_r.
  - rewrite IH. by rewrite <- app_assoc.
Qed.

Lemma add_items_Alts items first mids cur :
  fold_left (fun s e => add_item e s) items (Alts first mids cur)
  = Alts first mids (cur ++ items).
Proof.
  revert cur. induction items as [|e items IH]; intros cur; simpl.
  - by rewrite app_nil_r.
  - rewrite IH. by rewrite <- app_assoc.
Qed.

Lemma close_optional_optional_of sc :
  close_optional sc = optional_of (close_group sc).
Proof. by destruct sc. Qed.

Lemma leaf_atom_compiles c x : leaf_atom c = Some x -> compiles_to c (Leaf x).
Proof.
  intros H. apply compiles_to_expr_of.
  destruct c; simpl in *; by simplify_eq.
Qed.

Lemma leaves_compile s :
  Forall (fun c => is_Some (leaf_atom c)) s ->
  Forall2 compiles_to s (map Leaf (omap leaf_atom s)).
Proof.
  induction 1 as [|c s [x Hx] _ IH]; simpl; [constructor|].
  rewrite Hx. simpl. constructor; [by apply leaf_atom_compiles|done].
Qed.

(** X5.  A walk over a parse tree never raises, whatever the state of the
    listener it starts on, be it left with an open sentence or with entries
    on its stack: it adds exactly one sentence for each sentence of the
    tree, after those present before, and when the tree has a sentence it
    ends with no open sentence and an empty stack. *)
Theorem walk_never_raises (d : DocumentCtx) (l : Listener) :
  exists l' new,
    walk d l = Ok l' /\
    sentences l' = sentences l ++ new /\
    length new = length d /\
    (d <> [] -> _sentence l' = None /\ _sequences l' = []).
Proof.
  destruct (walk_document d l) as (l' & new & Hw & Hs & Hnew & _).
  exists l', new. do 2 (split; [done|]).
  split; [by apply Forall2_length in Hnew|].
  intros Hd. by eapply walk_reset.
Qed.

Lemma walk_never_raises_witness :
  exists l' new,
    walk [[WordCtx "b"]] listener_in_group = Ok l' /\
    sentences l' = sentences listener_in_group ++ new /\
    length new = 1 /\
    _sentence l' = None /\ _sequences l' = [].
Proof.
  destruct (walk_never_raises [[WordCtx "b"]] listener_in_group)
    as (l' & new & Hw & Hs & Hlen & Hreset).
  exists l', new. do 3 (split; [assumption|]). by apply Hreset.
Defined.

(** X6.  Sentences are compiled independently of each other and of what the
    listener has compiled before: on a listener whose sentences read back as
    [old], the walk over a parse tree leaves [old] followed by one tree for
    each sentence of the parse tree, in order, and each of these trees is
    the one its sentence compiles to alone on a new listener. *)
Theorem sentences_compile_independently
    (d : DocumentCtx) (l : Listener) (old : list Expression) :
  sentence_trees l = Some old ->
  exists l' ts,
    walk d l = Ok l' /\
    sentence_trees l' = Some (old ++ ts) /\
    Forall2 sentence_compiles_to d ts.
Proof.
  intros Hold. destruct (sentence_trees_walk d l old Hold) as (l' & Hw & Ht).
  exists l', (map denote_sentence d). do 2 (split; [done|]).
  apply Forall2_map_same. intros s _. apply sentence_compiles_denote.
Qed.

Lemma sentences_compile_independently_witness :
  exists l' ts,
    walk [[WordCtx "b"]; [OptionalCtx [WordCtx "c"]]] listener_after_a = Ok l' /\
    sentence_trees l' = Some ([Seq GROUP [Leaf (Word "a")]] ++ ts) /\
    Forall2 sentence_compiles_to
            [[WordCtx "b"]; [OptionalCtx [WordCtx "c"]]] ts.
Proof.
  apply (sentences_compile_independently
           [[WordCtx "b"]; [OptionalCtx [WordCtx "c"]]] listener_after_a).
  reflexivity.
Defined.

(** X7.  A walk changes no object that was in the store before it: every
    object is found unchanged at its address afterwards, and every tree that
    could be read from the store, such as a sentence handed out earlier,
    reads back the same. *)
Theorem walk_keeps_finished_objects
    (d : DocumentCtx) (l l' : Listener) :
  walk d l = Ok l' ->
  (forall a o, heap l !! a = Some o -> heap l' !! a = Some o) /\
  (forall a e, tree_at (heap l) a = Some e -> tree_at (heap l') a = Some e).
Proof.
  intros Hw.
  destruct (walk_document d l) as (l2 & new & Hw2 & _ & _ & Hp & Hlen).
  rewrite Hw in Hw2. injection Hw2 as <-. split.
  - intros a o. apply Hp. set_solver.
  - intros a e He. by eapply tree_at_mono.
Qed.

Lemma walk_keeps_finished_objects_witness :
  exists l',
    walk [[GroupCtx [WordCtx "b"; AltCtx; WordCtx "c"]]] listener_after_a
    = Ok l' /\
    tree_at (heap l') 0 = Some (Seq GROUP [Leaf (Word "a")]).
Proof.
  destruct (walk_document [[GroupCtx [WordCtx "b"; AltCtx; WordCtx "c"]]]
              listener_after_a) as (l' & _ & Hw & _).
  exists l'. split; [exact Hw|].
  destruct (walk_keeps_finished_objects _ _ _ Hw) as [_ H].
  apply H. reflexivity.
Defined.

End Compiling.

(** ** Contexts outside a sentence *)

Section Outside.

Lemma last_sequence_empty l :
  _sequences l = [] ->
  last_sequence l = Raise (AssertionError "No target sequence").
Proof. intros H. unfold last_sequence. by rewrite H. Qed.

Lemma leaf_outside l it :
  _sequences l = [] ->
  (let* target := last_sequence l in items_append target it l)
  = Raise (AssertionError "No target sequence").
Proof. intros H. by rewrite (last_sequence_empty l H). Qed.

(** The children of a group or optional opened on an empty stack are walked
    to the end; the stack then holds the marker and the entries of that one
    scope. *)
Lemma bracket_outside cs l :
  _sequences l = [] ->
  exists l1 l2 g bs,
    enterGroup l = Ok l1 /\
    run (events_of_children cs) l1 = Ok l2 /\
    _sequences l2 = [] ++ GROUP_MARKER :: map Some (g :: bs) /\
    g < length (heap l2).
Proof.
  intros Hs. unfold enterGroup. simpl. rewrite Hs. simpl.
  set (g := length (heap l)).
  set (l1 := set_sequences _ _).
  assert (Hinv1 : scope_inv (heap l1) [] g [] (Plain [])).
  { split; [apply NoDup_singleton|]. split.
    - constructor; [|constructor]. simpl. rewrite length_app. simpl.
      unfold g. lia.
    - split; [done|]. exists []. split; [apply lookup_alloc|constructor]. }
  destruct (walk_children cs (walks_all cs) l1 [GROUP_MARKER] [] g [] (Plain []))
    as (l2 & bs & Hrun & Hst); [done|right; by exists []|done|].
  destruct Hst as (Hs2 & _ & _ & Hinv2 & _).
  exists l1, l2, g, bs. split; [done|]. split; [done|]. split; [done|].
  destruct Hinv2 as (_ & Hlt & _).
  eapply Forall_forall in Hlt; [done|]. set_solver.
Qed.

(** X8.  Outside a sentence, that is on a listener whose stack is empty,
    walking any context raises the assertion "No target sequence": a word,
    a rule, a list or a separator at once; a group or an optional only at
    its end, once its children have been walked, since opening one needs no
    target. *)
Theorem context_outside_sentence (c : Ctx) (l : Listener) :
  _sequences l = [] ->
  run (events_of c) l = Raise (AssertionError "No target sequence").
Proof.
  intros Hs. destruct c as [t|n|n| |cs|cs].
  - simpl. unfold enterWord. by rewrite (leaf_outside l _ Hs).
  - simpl. unfold enterRule. by rewrite (leaf_outside l _ Hs).
  - simpl. unfold enterList. by rewrite (leaf_outside l _ Hs).
  - simpl. unfold enterAlt, last_parent_sequence. by rewrite Hs.
  - destruct (bracket_outside cs l Hs) as (l1 & l2 & g & bs & H1 & Hrun & Hs2 & Hg).
    cbn [events_of run dispatch]. rewrite H1. cbn [bind].
    fold (events_of_children cs). rewrite run_app, Hrun.
    cbn [bind run dispatch].
    unfold exitGroup. rewrite (pop_group_scope l2 [] g bs Hs2). cbn [bind].
    by rewrite last_sequence_empty.
  - destruct (bracket_outside cs l Hs) as (l1 & l2 & g & bs & H1 & Hrun & Hs2 & Hg).
    cbn [events_of run dispatch]. change (enterOptional l) with (enterGroup l).
    rewrite H1. cbn [bind].
    fold (events_of_children cs). rewrite run_app, Hrun.
    cbn [bind run dispatch].
    unfold exitOptional. rewrite (pop_group_scope l2 [] g bs Hs2). cbn [bind].
    destruct (lookup_lt_is_Some_2 (heap l2) g Hg) as [o Ho].
    unfold load at 1. simpl heap. rewrite Ho. cbn [bind].
    destruct (optional_to_alternative_inv g o (set_sequences [] l2))
      as (Hs3 & _ & _ & Hlen3).
    set (l3 := optional_to_alternative g o (set_sequences [] l2)) in *.
    simpl in Hlen3.
    destruct (items_append g (Atomic Word_empty) l3) as [l4|e] eqn:H4.
    + cbn [bind]. apply items_append_inv in H4 as (Hs4 & _).
      rewrite last_sequence_empty; [done|]. by rewrite Hs4, Hs3.
    + pose proof (items_append_valid g (Atomic Word_empty) l3) as Hv.
      rewrite H4 in Hv. simpl in Hv. discriminate Hv. lia.
Qed.

Lemma context_outside_sentence_witness :
  run (events_of (GroupCtx [WordCtx "a"; AltCtx; OptionalCtx [WordCtx "b"]]))
      listener_after_a
  = Raise (AssertionError "No target sequence").
Proof.
  apply (context_outside_sentence
           (GroupCtx [WordCtx "a"; AltCtx; OptionalCtx [WordCtx "b"]])
           listener_after_a).
  reflexivity.
Defined.

End Outside.

(** ** How compilation composes *)

Section Composition.

(** X9.  A sentence made of words, rules and lists only compiles to a root
    [GROUP] whose items are the classified words and the references, one
    for each context, in source order. *)
Theorem leaves_compile_in_order (s : SentenceCtx) :
  Forall (fun c => is_Some (leaf_atom c)) s ->
  sentence_compiles_to s (Seq GROUP (map Leaf (omap leaf_atom s))).
Proof.
  intros H. apply leaves_compile in H.
  pose proof (sentence_compiles_denote s) as Hs.
  unfold denote_sentence in Hs.
  by rewrite (denote_children_items _ _ _ H), add_items_Plain in Hs.
Qed.

Lemma leaves_compile_in_order_witness :
  sentence_compiles_to
    [WordCtx "turn"; WordCtx "5"; RuleCtx "area"; ListCtx "name"]
    (Seq GROUP [Leaf (Word "turn"); Leaf (Number 5);
                Leaf (RuleReference "area"); Leaf (ListReference "name")]).
Proof.
  apply (leaves_compile_in_order
           [WordCtx "turn"; WordCtx "5"; RuleCtx "area"; ListCtx "name"]).
  repeat constructor; by eexists.
Defined.

(** X10.  Compilation is compositional where there is no separator: when
    each child of a group compiles to an item of its own, the group compiles
    to the [GROUP] of these items in order, and so does a sentence with
    these children, as its root. *)
Theorem group_of_compiled_children (cs : list Ctx) (items : list Expression) :
  Forall2 compiles_to cs items ->
  compiles_to (GroupCtx cs) (Seq GROUP items) /\
  sentence_compiles_to cs (Seq GROUP items).
Proof.
  intros H. split.
  - apply compiles_to_expr_of. simpl.
    by rewrite (denote_children_items _ _ _ H), add_items_Plain.
  - pose proof (sentence_compiles_denote cs) as Hs.
    unfold denote_sentence in Hs.
    by rewrite (denote_children_items _ _ _ H), add_items_Plain in Hs.
Qed.

Lemma group_of_compiled_children_witness :
  compiles_to (GroupCtx [WordCtx "a"; OptionalCtx [WordCtx "b"]])
              (Seq GROUP [Leaf (Word "a");
                          Seq ALTERNATIVE [Leaf (Word "b");
                                           Leaf (Word EmptyString)]]).
Proof.
  apply (group_of_compiled_children
           [WordCtx "a"; OptionalCtx [WordCtx "b"]]).
  repeat constructor; (eexists; split; vm_compute; reflexivity).
Defined.

(** X11.  An optional is its group with one more alternative, the empty
    word: if the children compile, as a group, to an [ALTERNATIVE], the
    optional is that [ALTERNATIVE] with the empty word appended; if they
    compile to a [GROUP] of more than one item, the optional holds this
    [GROUP] and the empty word; and if to a [GROUP] of at most one item, the
    optional holds that item, if any, and the empty word. *)
Theorem optional_is_group_or_nothing (cs : list Ctx) (tg : Expression) :
  compiles_to (GroupCtx cs) tg ->
  compiles_to (OptionalCtx cs) (optional_of tg).
Proof.
  intros H. apply compiles_to_expr_of in H. apply compiles_to_expr_of.
  simpl in *. injection H as <-. by rewrite close_optional_optional_of.
Qed.

Lemma optional_is_group_or_nothing_witness :
  compiles_to (OptionalCtx [WordCtx "a"; WordCtx "b"])
              (Seq ALTERNATIVE [Seq GROUP [Leaf (Word "a"); Leaf (Word "b")];
                                Leaf (Word EmptyString)]).
Proof.
  apply (optional_is_group_or_nothing
           [WordCtx "a"; WordCtx "b"]
           (Seq GROUP [Leaf (Word "a"); Leaf (Word "b")])).
  eexists. split; vm_compute; reflexivity.
Defined.

(** X12.  One separator in a group makes an [ALTERNATIVE] of its two sides,
    but not in the same way: the items before it are wrapped in a nested
    [GROUP] only if there is at least one, an empty left side leaving no
    alternative at all, whereas the items after it always are, an empty
    right side leaving an empty [GROUP]. *)
Theorem separator_splits_group
    (cs1 cs2 : list Ctx) (items1 items2 : list Expression) :
  Forall2 compiles_to cs1 items1 ->
  Forall2 compiles_to cs2 items2 ->
  compiles_to (GroupCtx (cs1 ++ AltCtx :: cs2))
    (Seq ALTERNATIVE
       (match items1 with
        | [] => []
        | _ => [Seq GROUP items1]
        end ++ [Seq GROUP items2])).
Proof.
  intros H1 H2. apply compiles_to_expr_of. simpl.
  fold (denote_children (cs1 ++ AltCtx :: cs2) (Plain [])).
  rewrite denote_children_app, denote_children_cons.
  rewrite (denote_children_items _ _ _ H1), add_items_Plain. simpl.
  by rewrite (denote_children_items _ _ _ H2), add_items_Alts.
Qed.

Lemma separator_splits_group_witness :
  compiles_to (GroupCtx ([] ++ AltCtx :: [WordCtx "a"]))
              (Seq ALTERNATIVE [Seq GROUP [Leaf (Word "a")]]) /\
  compiles_to (GroupCtx ([WordCtx "a"] ++ AltCtx :: []))
              (Seq ALTERNATIVE [Seq GROUP [Leaf (Word "a")]; Seq GROUP []]).
Proof.
  split.
  - apply (separator_splits_group [] [WordCtx "a"] [] [Leaf (Word "a")]).
    + constructor.
    + repeat constructor. eexists. split; vm_compute; reflexivity.
  - apply (separator_splits_group [WordCtx "a"] [] [Leaf (Word "a")] []).
    + repeat constructor. eexists. split; vm_compute; reflexivity.
    + constructor.
Defined.

End Composition.

(** ** White space in tokens and lines *)

Section WhiteSpace.
Import Text Patterns.

Lemma forallb_is_space_rev cs :
  forallb is_space (rev cs) = forallb is_space cs.
Proof.
  induction cs as [|c cs IH]; [done|]. simpl.
  rewrite forallb_app, IH. simpl. rewrite andb_true_r. apply andb_comm.
Qed.

Lemma lstrip_app_space ws cs :
  forallb is_space ws = true -> lstrip (ws ++ cs) = lstrip cs.
Proof.
  induction ws as [|c ws IH]; [done|]. simpl.
  intros [Hc Hws]%andb_true_iff. rewrite Hc. by apply IH.
Qed.

Lemma lstrip_app_not_space cs ws :
  forallb is_space cs = false -> lstrip (cs ++ ws) = lstrip cs ++ ws.
Proof.
  induction cs as [|c cs IH]; [done|]. simpl.
  destruct (is_space c); [exact IH|done].
Qed.

Lemma forallb_is_space_lstrip cs :
  forallb is_space (lstrip cs) = forallb is_space cs.
Proof.
  induction cs as [|c cs IH]; [done|]. simpl.
  destruct (is_space c) eqn:Hc; [exact IH|]. simpl. by rewrite Hc.
Qed.

Lemma lstrip_nil cs : lstrip cs = [] <-> forallb is_space cs = true.
Proof.
  split; [|apply lstrip_all_space].
  intros H. by rewrite <- forallb_is_space_lstrip, H.
Qed.

Lemma rstrip_app_space cs ws :
  forallb is_space ws = true -> rstrip (cs ++ ws) = rstrip cs.
Proof.
  intros H. unfold rstrip. rewrite rev_app_distr, lstrip_app_space; [done|].
  by rewrite forallb_is_space_rev.
Qed.

Lemma rstrip_nil cs : rstrip cs = [] <-> forallb is_space cs = true.
Proof.
  unfold rstrip. rewrite <- forallb_is_space_rev, <- lstrip_nil.
  split; [|by intros ->].
  intros H. apply (f_equal (@rev ascii)) in H. by rewrite rev_involutive in H.
Qed.

Lemma strip_padded ws t ws' :
  blank ws -> blank ws' ->
  strip (String.append ws (String.append t ws')) = strip t.
Proof.
  unfold blank, strip. intros Hws Hws'.
  rewrite !list_ascii_of_string_append, (lstrip_app_space _ _ Hws).
  destruct (forallb is_space (list_ascii_of_string t)) eqn:Ht.
  - rewrite (lstrip_all_space (_ ++ _)), (lstrip_all_space _ Ht); [done|].
    by rewrite forallb_app, Ht, Hws'.
  - by rewrite (lstrip_app_not_space _ _ Ht), (rstrip_app_space _ _ Hws').
Qed.

Lemma is_empty_string_of_list cs :
  is_empty (string_of_list_ascii cs) = true <-> cs = [].
Proof. by destruct cs. Qed.

Lemma strip_empty s : is_empty (strip s) = true <-> blank s.
Proof.
  unfold strip, blank.
  by rewrite is_empty_string_of_list, rstrip_nil, forallb_is_space_lstrip.
Qed.

Lemma blank_append s1 s2 :
  blank (String.append s1 s2) <-> blank s1 /\ blank s2.
Proof.
  unfold blank. rewrite list_ascii_of_string_append, forallb_app.
  apply andb_true_iff.
Qed.

Lemma blank_join_inv lines :
  blank (join (String newline EmptyString) lines) -> Forall blank lines.
Proof.
  induction lines as [|x lines IH]; [constructor|].
  destruct lines as [|y lines].
  - intros H. by constructor.
  - change (join _ (x :: y :: lines))
      with (String.append x (String.append (String newline EmptyString)
                                            (join (String newline EmptyString)
                                                  (y :: lines)))).
    intros [Hx [_ Hrest]%blank_append]%blank_append. constructor; [done|by apply IH].
Qed.

(** X13.  [enterWord] does not see white space around a token: padding the
    text on either side with characters that [str.strip()] removes (among
    the code points below 256) gives the same item and the same effect on
    the listener; and a token made of such characters only is appended as
    the empty word, the very item an optional adds as its last
    alternative. *)
Theorem classify_ignores_outer_space (ws t ws' : string) (l : Listener) :
  blank ws -> blank ws' ->
  classify (String.append ws (String.append t ws')) = classify t /\
  enterWord (String.append ws (String.append t ws')) l = enterWord t l /\
  classify ws = Word_empty.
Proof.
  intros Hws Hws'.
  assert (H : classify (String.append ws (String.append t ws')) = classify t).
  { unfold classify. by rewrite (strip_padded ws t ws' Hws Hws'). }
  split; [exact H|]. split.
  - unfold enterWord. by rewrite H.
  - unfold classify. by rewrite (strip_all_space ws Hws).
Qed.

Lemma classify_ignores_outer_space_witness :
  classify (String.append "  " (String.append "10..20" " "))
  = classify "10..20" /\
  classify "  " = Word_empty.
Proof.
  destruct (classify_ignores_outer_space "  " "10..20" " " init)
    as (H1 & _ & H2); [reflexivity..|].
  split; [exact H1|exact H2].
Defined.

(** X14.  For lines of code points below 256, [parse_sentences] skips the
    front end and the walk only when every line is made of the characters
    [str.strip()] removes, the no-break space and the next-line control
    among them: the text it strips, the lines joined by line feeds with one
    more line feed, is empty exactly then.  As soon as one line holds
    another character the text goes to the front end, and the result is the
    walk of its document from the listener as it is. *)
Theorem walk_skipped_only_for_blank_lines (lines : list string) (l : Listener) :
  (is_empty (strip (joined_text lines)) = true <-> Forall blank lines) /\
  (~ Forall blank lines ->
   parse_sentences lines l =
   match FrontEnd.document (joined_text lines) with
   | Some d => walk d l
   | None => Raise SyntaxError
   end).
Proof.
  assert (H : is_empty (strip (joined_text lines)) = true <-> Forall blank lines).
  { rewrite strip_empty. split; [|apply blank_joined_text].
    unfold joined_text. intros [H _]%blank_append. by apply blank_join_inv. }
  split; [exact H|].
  intros Hn. unfold parse_sentences.
  destruct (is_empty (strip (joined_text lines))) eqn:He; [|done].
  exfalso. apply Hn. by apply H.
Qed.

Lemma walk_skipped_only_for_blank_lines_witness :
  parse_sentences [" "; "a"] listener_after_a
  = walk [[WordCtx "a"]] listener_after_a /\
  is_empty (strip (joined_text [String "160"%char EmptyString; " "])) = true.
Proof.
  split.
  - destruct (walk_skipped_only_for_blank_lines [" "; "a"] listener_after_a)
      as [_ H].
    rewrite H; [reflexivity|].
    intros Hb. inversion Hb as [|? ? _ Hb2]. inversion Hb2 as [|? ? Hb3 _].
    discriminate Hb3.
  - destruct (walk_skipped_only_for_blank_lines
                [String "160"%char EmptyString; " "] init) as [H _].
    apply H. repeat constructor.
Defined.

End WhiteSpace.
